(** * A threaded comment store: model of [comment_system.py] and its properties

    The store of [CommentSystem] is embedded as a record; every method is a
    function from a store to an [outcome], which is a returned value with
    the store it leaves, a raised exception, or a call that blocks for ever
    on the store's lock.

    Python objects are shared: the [Comment] bound in [self.comments] is the
    very object that sits in its parent's [replies] list, or in a post's
    [comments] list.  The model keeps each [Comment] once, in the map
    [comments], and lets lists hold references to it.  A reference is the id
    the object was built with: [add_comment] is the only place that builds a
    [Comment], it draws the id from a counter that only grows, and no code
    assigns the field again.  The dataclass equality behind
    [comment in post.comments] and [list.remove] compares the field tuples
    from [id] on, so between objects of one store it is decided by the id. *)

From Stdlib Require Import ZArith Ascii String.
From stdpp Require Import gmap strings list fin_maps sorting.

Local Open Scope Z_scope.
Set Warnings "-clear-no-such-hyp".

(** ** Data model *)

Module Comment.
(** [timestamp] is the reading of [time.time()] that [add_comment] is
    given; no method looks at it. *)
Record t := mk {
  id : Z;
  user : string;
  content : string;
  timestamp : Z;
  parent_comment_id : option Z;
  replies : list Z;
  vote_count : Z;
  collapsed : bool
}.

Definition set_replies (r : list Z) (c : t) : t :=
  mk (id c) (user c) (content c) (timestamp c) (parent_comment_id c)
     r (vote_count c) (collapsed c).
Definition set_vote_count (v : Z) (c : t) : t :=
  mk (id c) (user c) (content c) (timestamp c) (parent_comment_id c)
     (replies c) v (collapsed c).
Definition set_collapsed (b : bool) (c : t) : t :=
  mk (id c) (user c) (content c) (timestamp c) (parent_comment_id c)
     (replies c) (vote_count c) b.
End Comment.

Module Post.
(** The field [comment_system] of the class points back to the store that
    owns the post; the store is the one being threaded, so it is left out. *)
Record t := mk {
  id : Z;
  title : string;
  comments : list Z
}.

Definition set_comments (l : list Z) (p : t) : t := mk (id p) (title p) l.
End Post.

(** [posts] is iterated by [delete_comment] ([self.posts.values()]), so it
    keeps the insertion order of the Python dict.  [lock] is [true] while
    the [threading.Lock] is held. *)
Record CommentSystem := mkCommentSystem {
  posts : list (Z * Post.t);
  comments : gmap Z Comment.t;
  user_comments : gmap string (list Z);
  next_comment_id : Z;
  next_post_id : Z;
  lock : bool
}.

Definition set_posts (x : list (Z * Post.t)) (s : CommentSystem) :=
  mkCommentSystem x (comments s) (user_comments s) (next_comment_id s)
                  (next_post_id s) (lock s).
Definition set_comments (x : gmap Z Comment.t) (s : CommentSystem) :=
  mkCommentSystem (posts s) x (user_comments s) (next_comment_id s)
                  (next_post_id s) (lock s).
Definition set_user_comments (x : gmap string (list Z)) (s : CommentSystem) :=
  mkCommentSystem (posts s) (comments s) x (next_comment_id s)
                  (next_post_id s) (lock s).
Definition set_next_comment_id (x : Z) (s : CommentSystem) :=
  mkCommentSystem (posts s) (comments s) (user_comments s) x
                  (next_post_id s) (lock s).
Definition set_next_post_id (x : Z) (s : CommentSystem) :=
  mkCommentSystem (posts s) (comments s) (user_comments s)
                  (next_comment_id s) x (lock s).
Definition set_lock (x : bool) (s : CommentSystem) :=
  mkCommentSystem (posts s) (comments s) (user_comments s)
                  (next_comment_id s) (next_post_id s) x.

(** [CommentSystem.__init__] *)
Definition init : CommentSystem :=
  mkCommentSystem [] ∅ ∅ 1 1 false.

(** ** Insertion-ordered dictionary, for [posts] *)

Fixpoint dict_get {V} (k : Z) (d : list (Z * V)) : option V :=
  match d with
  | [] => None
  | (k', v) :: d' => if bool_decide (k = k') then Some v else dict_get k d'
  end.

(** [d[k] = v]: an existing key keeps its place, a new one goes last. *)
Fixpoint dict_set {V} (k : Z) (v : V) (d : list (Z * V)) : list (Z * V) :=
  match d with
  | [] => [(k, v)]
  | (k', v') :: d' =>
      if bool_decide (k = k') then (k, v) :: d' else (k', v') :: dict_set k v d'
  end.

(** ** Python list and string primitives *)

(** [l.remove(x)] where [x in l] was tested: the first occurrence goes. *)
Fixpoint remove_first (x : Z) (l : list Z) : list Z :=
  match l with
  | [] => []
  | y :: l' => if bool_decide (x = y) then l' else y :: remove_first x l'
  end.

(** Characters are code points below 256.  [str.isspace] holds there for
    TAB to CR, FS to US, the space, NEL and the no-break space. *)
Definition is_space (a : ascii) : bool :=
  let n := nat_of_ascii a in
  ((9 <=? n) && (n <=? 13) || (28 <=? n) && (n <=? 32)
   || (n =? 133) || (n =? 160))%nat.

Fixpoint lstrip (s : string) : string :=
  match s with
  | EmptyString => EmptyString
  | String a r => if is_space a then lstrip r else s
  end.

Fixpoint rstrip (s : string) : string :=
  match s with
  | EmptyString => EmptyString
  | String a r =>
      match rstrip r with
      | EmptyString => if is_space a then EmptyString else String a EmptyString
      | r' => String a r'
      end
  end.

(** [str.strip()] *)
Definition strip (s : string) : string := lstrip (rstrip s).

(** Truth value of a [str]: the empty string is false. *)
Definition truthy (s : string) : bool :=
  match s with EmptyString => false | _ => true end.

(** ** Outcomes and the store monad *)

Inductive exn := KeyError | ValueError.

(** [Blocked]: the call waits on a lock that is never released.
    [OutOfFuel]: the budget the model gives to loops and recursion ran out;
    it stands for no behaviour of the program. *)
Inductive outcome (A : Type) :=
  | Ret (v : A) (s : CommentSystem)
  | Raise (e : exn) (s : CommentSystem)
  | Blocked (s : CommentSystem)
  | OutOfFuel.
Arguments Ret {A} v s.
Arguments Raise {A} e s.
Arguments Blocked {A} s.
Arguments OutOfFuel {A}.

Definition M (A : Type) : Type := CommentSystem → outcome A.

Definition ret {A} (v : A) : M A := λ s, Ret v s.
Definition bind {A B} (m : M A) (k : A → M B) : M B := λ s,
  match m s with
  | Ret v s' => k v s'
  | Raise e s' => Raise e s'
  | Blocked s' => Blocked s'
  | OutOfFuel => OutOfFuel
  end.
Definition get : M CommentSystem := λ s, Ret s s.
Definition modify (f : CommentSystem → CommentSystem) : M unit :=
  λ s, Ret tt (f s).
Definition raise {A} (e : exn) : M A := λ s, Raise e s.
(** a pure helper that needs fuel *)
Definition fueled {A} (o : option A) : M A := λ s,
  match o with Some v => Ret v s | None => OutOfFuel end.

Notation "'let*' x := m 'in' k" := (bind m (λ x, k))
  (at level 10, x name, m at level 100, k at level 200, only parsing).
Notation "m ;;; k" := (bind m (λ _, k))
  (at level 100, k at level 200, right associativity, only parsing).

(** [with self.lock: body].  [threading.Lock] is not re-entrant: acquiring
    it while it is held waits, whoever holds it.  Leaving the block, by
    [return] or by an exception, releases it. *)
Definition with_lock {A} (body : M A) : M A := λ s,
  if lock s then Blocked s
  else match body (set_lock true s) with
       | Ret v s' => Ret v (set_lock false s')
       | Raise e s' => Raise e (set_lock false s')
       | Blocked s' => Blocked s'
       | OutOfFuel => OutOfFuel
       end.

(** A [for] loop whose body runs in the monad. *)
Fixpoint for_each {A} (l : list A) (body : A → M unit) : M unit :=
  match l with
  | [] => ret tt
  | x :: l' => body x ;;; for_each l' body
  end.

(** ** The methods of [CommentSystem] *)

(** [create_post]; the [Post] it returns is named by its id. *)
Definition create_post (title : string) : M Z :=
  with_lock (
    let* s := get in
    let post_id := next_post_id s in
    modify (set_next_post_id (post_id + 1)) ;;;
    modify (λ s, set_posts
                   (dict_set post_id (Post.mk post_id title []) (posts s)) s) ;;;
    ret post_id).

(** The [while] loop of [_get_comment_depth]; one unit of fuel per turn. *)
Fixpoint depth_loop (fuel : nat) (cs : gmap Z Comment.t)
    (current_id : option Z) (depth : nat) : option nat :=
  match current_id with
  | None => Some depth
  | Some cur =>
      match cs !! cur with
      | None => Some depth
      | Some current_comment =>
          match fuel with
          | O => None
          | S fuel' =>
              let current_id' := Comment.parent_comment_id current_comment in
              depth_loop fuel' cs current_id'
                (if current_id' is Some _ then S depth else depth)
          end
      end
  end.

Definition _get_comment_depth (fuel : nat) (cs : gmap Z Comment.t)
    (comment_id : Z) : option nat :=
  depth_loop fuel cs (Some comment_id) 0%nat.

(** [_count_total_replies]; fuel bounds the depth of the recursion.  The
    argument is a reference, and [None] also answers a reference to no
    object, which no Python state has. *)
Fixpoint _count_total_replies (fuel : nat) (cs : gmap Z Comment.t)
    (comment : Z) : option nat :=
  match fuel with
  | O => None
  | S fuel' =>
      c ← cs !! comment;
      foldl (λ count reply,
               n ← count;
               k ← _count_total_replies fuel' cs reply;
               Some (n + k)%nat)
            (Some (length (Comment.replies c))) (Comment.replies c)
  end.

Definition should_collapse_thread (fuel : nat) (cs : gmap Z Comment.t)
    (comment : Z) : option bool :=
  n ← _count_total_replies fuel cs comment; Some (10 <? n)%nat.

(** [self.posts[post_id].comments.append(c)] *)
Definition post_append (post_id c : Z) : M unit :=
  let* s := get in
  match dict_get post_id (posts s) with
  | None => raise KeyError
  | Some post =>
      modify (set_posts
        (dict_set post_id
           (Post.set_comments (Post.comments post ++ [c]) post) (posts s)))
  end.

(** Assignment to a field of the object behind a reference. *)
Definition update_comment (r : Z) (f : Comment.t → Comment.t) : M unit :=
  let* s := get in
  match comments s !! r with
  | None => raise KeyError
  | Some c => modify (set_comments (<[r := f c]> (comments s)))
  end.

Definition add_comment (fuel : nat) (post_id : Z) (user content : string)
    (parent_comment_id : option Z) (now : Z) : M (option Z) :=
  if negb (truthy user) || negb (truthy (strip content)) then ret None
  else with_lock (
    let* s := get in
    if bool_decide (dict_get post_id (posts s) = None) then ret None else
    let* admitted :=
      match parent_comment_id with
      | None => ret true
      | Some p =>
          if bool_decide (comments s !! p = None) then ret false
          else
            let* parent_depth :=
              fueled (_get_comment_depth fuel (comments s) p) in
            ret (negb (4 <=? parent_depth)%nat)
      end in
    if negb admitted then ret None else
    let comment_id := next_comment_id s in
    modify (set_next_comment_id (comment_id + 1)) ;;;
    let new_comment :=
      Comment.mk comment_id user content now parent_comment_id [] 0 false in
    modify (λ s, set_comments (<[comment_id := new_comment]> (comments s)) s) ;;;
    modify (λ s, set_user_comments
                   (<[user := default [] (user_comments s !! user)
                              ++ [comment_id]]> (user_comments s)) s) ;;;
    match parent_comment_id with
    | None => post_append post_id comment_id
    | Some p =>
        update_comment p
          (λ c, Comment.set_replies (Comment.replies c ++ [comment_id]) c) ;;;
        let* s := get in
        let* collapse := fueled (should_collapse_thread fuel (comments s) p) in
        if collapse : bool then update_comment p (Comment.set_collapsed true)
        else ret tt
    end ;;;
    ret (Some comment_id)).

(** [_flatten_comments]; fuel bounds the depth of the recursion. *)
Fixpoint _flatten_comments (fuel : nat) (cs : gmap Z Comment.t)
    (l : list Z) : option (list Z) :=
  match fuel with
  | O => None
  | S fuel' =>
      foldl (λ flat_list comment,
               fl ← flat_list;
               c ← cs !! comment;
               if Comment.collapsed c then Some (fl ++ [comment])
               else sub ← _flatten_comments fuel' cs (Comment.replies c);
                    Some ((fl ++ [comment]) ++ sub))
            (Some []) l
  end.

Definition get_comments_view (fuel : nat) (post_id : Z)
    (view_type : string) : M (list Z) :=
  with_lock (
    let* s := get in
    match dict_get post_id (posts s) with
    | None => ret []
    | Some post =>
        if bool_decide (view_type = "tree") then ret (Post.comments post)
        else if bool_decide (view_type = "flat") then
          fueled (_flatten_comments fuel (comments s) (Post.comments post))
        else raise ValueError
    end).

Definition upvote_comment (comment_id : Z) : M bool :=
  with_lock (
    let* s := get in
    if bool_decide (is_Some (comments s !! comment_id)) then
      update_comment comment_id
        (λ c, Comment.set_vote_count (Comment.vote_count c + 1) c) ;;;
      ret true
    else ret false).

Definition downvote_comment (comment_id : Z) : M bool :=
  with_lock (
    let* s := get in
    if bool_decide (is_Some (comments s !! comment_id)) then
      update_comment comment_id
        (λ c, Comment.set_vote_count (Comment.vote_count c - 1) c) ;;;
      ret true
    else ret false).

Definition toggle_collapse (comment_id : Z) : M bool :=
  with_lock (
    let* s := get in
    if bool_decide (is_Some (comments s !! comment_id)) then
      update_comment comment_id
        (λ c, Comment.set_collapsed (negb (Comment.collapsed c)) c) ;;;
      ret true
    else ret false).

(** The comprehension of [get_user_comments]: [self.comments[i]] for each
    id, [None] when one of them is no key. *)
Fixpoint lookup_all (cs : gmap Z Comment.t) (ids : list Z) : option (list Z) :=
  match ids with
  | [] => Some []
  | i :: ids' =>
      if bool_decide (is_Some (cs !! i))
      then l ← lookup_all cs ids'; Some (i :: l)
      else None
  end.

Definition get_user_comments (user : string) : M (list Z) :=
  with_lock (
    let* s := get in
    match user_comments s !! user with
    | None => ret []
    | Some ids =>
        match lookup_all (comments s) ids with
        | Some l => ret l
        | None => raise KeyError
        end
    end).

(** The loop over [self.posts.values()] in [delete_comment]: the first
    post that holds the comment loses it, and the loop breaks. *)
Fixpoint remove_from_posts (c : Z) (ps : list (Z * Post.t))
    : list (Z * Post.t) :=
  match ps with
  | [] => []
  | (k, post) :: ps' =>
      if bool_decide (c ∈ Post.comments post)
      then (k, Post.set_comments (remove_first c (Post.comments post)) post)
           :: ps'
      else (k, post) :: remove_from_posts c ps'
  end.

(** [delete_comment].  It calls itself for each reply, through the public
    entry that takes the lock; fuel bounds the depth of that recursion. *)
Fixpoint delete_comment (fuel : nat) (comment_id : Z) : M bool :=
  match fuel with
  | O => λ _, OutOfFuel
  | S fuel' =>
      with_lock (
        let* s := get in
        match comments s !! comment_id with
        | None => ret false
        | Some comment =>
            match Comment.parent_comment_id comment with
            | None => modify (λ s, set_posts
                                     (remove_from_posts comment_id (posts s)) s)
            | Some p =>
                match comments s !! p with
                | None => raise KeyError
                | Some parent =>
                    if bool_decide (comment_id ∈ Comment.replies parent)
                    then update_comment p
                           (λ c, Comment.set_replies
                                   (remove_first comment_id (Comment.replies c)) c)
                    else ret tt
                end
            end ;;;
            let* s := get in
            match user_comments s !! Comment.user comment with
            | None => ret tt
            | Some ids =>
                if bool_decide (comment_id ∈ ids)
                then modify (λ s, set_user_comments
                       (<[Comment.user comment := remove_first comment_id ids]>
                          (user_comments s)) s)
                else ret tt
            end ;;;
            let* s := get in
            let replies_to_delete :=
              default [] (Comment.replies <$> comments s !! comment_id) in
            for_each replies_to_delete
              (λ reply, delete_comment fuel' reply ;;; ret tt) ;;;
            let* s := get in
            if bool_decide (is_Some (comments s !! comment_id)) then
              modify (set_comments (delete comment_id (comments s))) ;;;
              ret true
            else raise KeyError
        end)
  end.

(** ** Specification-side notions *)

(** A string of white space only (the empty string included). *)
Fixpoint all_space (s : string) : bool :=
  match s with
  | EmptyString => true
  | String a r => is_space a && all_space r
  end.

(** Depth as the specification has it: the number of parent hops from a
    comment up to a comment that has no parent. *)
Inductive hops (cs : gmap Z Comment.t) : Z → nat → Prop :=
  | hops_root i c :
      cs !! i = Some c → Comment.parent_comment_id c = None → hops cs i 0
  | hops_reply i c p n :
      cs !! i = Some c → Comment.parent_comment_id c = Some p →
      hops cs p n → hops cs i (S n).

(** The reply tree under a reference, read off the store: the node of
    reference [i] carries the object's fields, and one subtree per entry
    of its [replies], in order. *)
#[warnings="-register-all"]
Inductive tree := Node (i : Z) (c : Comment.t) (kids : list tree).

Inductive reify (cs : gmap Z Comment.t) : Z → tree → Prop :=
  | reify_node i c kids :
      cs !! i = Some c → reify_forest cs (Comment.replies c) kids →
      reify cs i (Node i c kids)
with reify_forest (cs : gmap Z Comment.t) : list Z → list tree → Prop :=
  | reify_nil : reify_forest cs [] []
  | reify_cons i l t ts :
      reify cs i t → reify_forest cs l ts → reify_forest cs (i :: l) (t :: ts).

Scheme reify_mut := Minimality for reify Sort Prop
  with reify_forest_mut := Minimality for reify_forest Sort Prop.
Combined Scheme reify_mutind from reify_mut, reify_forest_mut.

(** Total number of descendants: the sum, over the direct replies, of one
    plus their own total. *)
Fixpoint descendants (t : tree) : nat :=
  match t with
  | Node _ _ kids => foldr (λ k n, (S (descendants k) + n)%nat) 0%nat kids
  end.

(** Depth-first pre-order listing in which a collapsed comment is listed
    and its replies are left out. *)
Fixpoint preorder (t : tree) : list Z :=
  match t with
  | Node i c kids =>
      i :: (if Comment.collapsed c then []
            else foldr (λ k l, preorder k ++ l) [] kids)
  end.

Definition preorder_forest (ts : list tree) : list Z :=
  foldr (λ k l, preorder k ++ l) [] ts.

Fixpoint height (t : tree) : nat :=
  match t with
  | Node _ _ kids => S (foldr (λ k n, Nat.max (height k) n) 0%nat kids)
  end.

Definition height_forest (ts : list tree) : nat :=
  foldr (λ k n, Nat.max (height k) n) 0%nat ts.

(** ** Stores that the methods can produce *)

(** An operation has completed, by returning or by raising, and left [s']. *)
Definition completes {A} (o : outcome A) (s' : CommentSystem) : Prop :=
  match o with
  | Ret _ s | Raise _ s => s' = s
  | Blocked _ | OutOfFuel => False
  end.

(** A call of a public method, with its arguments. *)
Inductive op :=
  | CreatePost (title : string)
  | AddComment (fuel : nat) (post_id : Z) (user content : string)
               (parent_comment_id : option Z) (now : Z)
  | GetCommentsView (fuel : nat) (post_id : Z) (view_type : string)
  | UpvoteComment (comment_id : Z)
  | DownvoteComment (comment_id : Z)
  | ToggleCollapse (comment_id : Z)
  | GetUserComments (user : string)
  | DeleteComment (fuel : nat) (comment_id : Z).

(** The call, its result dropped. *)
Definition perform (o : op) : M unit :=
  match o with
  | CreatePost title => create_post title ;;; ret tt
  | AddComment fuel post_id user content parent now =>
      add_comment fuel post_id user content parent now ;;; ret tt
  | GetCommentsView fuel post_id view_type =>
      get_comments_view fuel post_id view_type ;;; ret tt
  | UpvoteComment i => upvote_comment i ;;; ret tt
  | DownvoteComment i => downvote_comment i ;;; ret tt
  | ToggleCollapse i => toggle_collapse i ;;; ret tt
  | GetUserComments u => get_user_comments u ;;; ret tt
  | DeleteComment fuel i => delete_comment fuel i ;;; ret tt
  end.

(** The comment a call authors, if it does. *)
Definition created (o : op) (s : CommentSystem) : list Z :=
  match o with
  | AddComment fuel post_id user content parent now =>
      match add_comment fuel post_id user content parent now s with
      | Ret (Some i) _ => [i]
      | _ => []
      end
  | _ => []
  end.

(** [history s log]: a sequence of completed calls leads from the empty
    store to [s], and [log] lists the comments they authored, in the order
    of authoring, whether or not they were deleted later. *)
Inductive history : CommentSystem → list Z → Prop :=
  | history_init : history init []
  | history_step s log o s' :
      history s log → completes (perform o s) s' →
      history s' (log ++ created o s).

Definition reachable (s : CommentSystem) : Prop := ∃ log, history s log.

(** A comment of [u] that is still in the index. *)
Definition still_by (s : CommentSystem) (u : string) (i : Z) : bool :=
  match comments s !! i with
  | Some c => bool_decide (Comment.user c = u)
  | None => false
  end.

(** All references held by the posts, in order. *)
Definition top_level (ps : list (Z * Post.t)) : list Z :=
  concat (map (λ kp, Post.comments kp.2) ps).

(** The invariant of reachable stores. *)
Record wf (s : CommentSystem) : Prop := mk_wf {
  wf_lock : lock s = false;
  wf_next : 0 < next_comment_id s;
  wf_ids : ∀ i c, comments s !! i = Some c →
      Comment.id c = i ∧ 0 < i < next_comment_id s;
  wf_parent : ∀ i c p, comments s !! i = Some c →
      Comment.parent_comment_id c = Some p →
      p < i ∧ ∃ pc, comments s !! p = Some pc ∧ i ∈ Comment.replies pc;
  wf_replies : ∀ i c r, comments s !! i = Some c → r ∈ Comment.replies c →
      ∃ rc, comments s !! r = Some rc ∧ Comment.parent_comment_id rc = Some i;
  wf_replies_nodup : ∀ i c, comments s !! i = Some c →
      NoDup (Comment.replies c);
  wf_roots : ∀ i c, comments s !! i = Some c →
      Comment.parent_comment_id c = None → i ∈ top_level (posts s);
  wf_posts : ∀ r, r ∈ top_level (posts s) →
      ∃ rc, comments s !! r = Some rc ∧ Comment.parent_comment_id rc = None;
  wf_posts_nodup : NoDup (top_level (posts s));
  wf_post_ids : ∀ k post, (k, post) ∈ posts s → k < next_post_id s;
  wf_users : ∀ u l, user_comments s !! u = Some l →
      StronglySorted Z.lt l ∧
      ∀ i, i ∈ l ↔ ∃ c, comments s !! i = Some c ∧ Comment.user c = u;
  wf_users_dom : ∀ i c, comments s !! i = Some c →
      is_Some (user_comments s !! Comment.user c);
  wf_depth : ∀ i n, hops (comments s) i n → (n ≤ 4)%nat
}.

(** ** Example stores *)

(** The store an operation leaves. *)
Definition after {A} (m : M A) (s : CommentSystem) : CommentSystem :=
  match m s with
  | Ret _ s' | Raise _ s' | Blocked s' => s'
  | OutOfFuel => s
  end.

(** One post without comments. *)
Definition store_empty_post : CommentSystem :=
  after (create_post "Post Title") init.

(** One post and one comment, as [test_auto_collapse] starts. *)
Definition store_one_comment : CommentSystem :=
  after (add_comment 8 1 "User1" "First comment." None 100) store_empty_post.

Definition store_two_comments : CommentSystem :=
  after (add_comment 8 1 "User2" "Second comment." None 101) store_one_comment.

(** The store of [test_delete_comment] before the deletion: one post, two
    top-level comments, and a reply to the first. *)
Definition store_test_delete : CommentSystem :=
  after (add_comment 8 1 "User3" "Reply to first comment." (Some 1) 102)
        store_two_comments.

(** The same with the first comment collapsed by hand. *)
Definition store_collapsed : CommentSystem :=
  after (toggle_collapse 1) store_test_delete.

(** The store of [test_user_index]: User1, User2, then User1 again. *)
Definition store_user_index : CommentSystem :=
  after (add_comment 8 1 "User1" "Another comment from User1." None 102)
        store_two_comments.

(** ... and with the first comment deleted. *)
Definition store_user_index_deleted : CommentSystem :=
  after (delete_comment 8 1) store_user_index.

(** A chain of replies, each to the comment before it, as
    [test_max_reply_depth] builds it: [chain n] holds comments 1 to [n + 1],
    comment [k + 1] at depth [k]. *)
Fixpoint chain (n : nat) : CommentSystem :=
  match n with
  | O => store_one_comment
  | S n' => after (add_comment 8 1 "User" "Reply" (Some (Z.of_nat n)) 104)
                  (chain n')
  end.

(** ** The store in which a cascade stops

    The store [delete_comment] has produced when it reaches its loop over
    the replies: the comment is detached from its container and from its
    author's list, it is still in the index, and the lock is held. *)
Definition detached (i : Z) (c : Comment.t) (s : CommentSystem) : CommentSystem :=
  let s1 := set_lock true s in
  let s2 :=
    match Comment.parent_comment_id c with
    | None => set_posts (remove_from_posts i (posts s1)) s1
    | Some p =>
        match comments s1 !! p with
        | Some parent =>
            if bool_decide (i ∈ Comment.replies parent)
            then set_comments
                   (<[p := Comment.set_replies
                             (remove_first i (Comment.replies parent)) parent]>
                      (comments s1)) s1
            else s1
        | None => s1
        end
    end in
  match user_comments s2 !! Comment.user c with
  | Some ids =>
      if bool_decide (i ∈ ids)
      then set_user_comments
             (<[Comment.user c := remove_first i ids]> (user_comments s2)) s2
      else s2
  | None => s2
  end.

(** What the invariant reads of a comment: every field but the vote count
    and the collapsed flag. *)
Definition shape (c : Comment.t) : Z * string * option Z * list Z :=
  (Comment.id c, Comment.user c, Comment.parent_comment_id c, Comment.replies c).

Definition same_shape (cs cs' : gmap Z Comment.t) : Prop :=
  ∀ j, shape <$> cs !! j = shape <$> cs' !! j.

(** ** The stores a successful [add_comment] passes through *)

Definition new_comment (s : CommentSystem) (user content : string)
    (parent : option Z) (now : Z) : Comment.t :=
  Comment.mk (next_comment_id s) user content now parent [] 0 false.

(** The new comment is in the index and in its author's list. *)
Definition inserted (s : CommentSystem) (user content : string)
    (parent : option Z) (now : Z) : CommentSystem :=
  let n := next_comment_id s in
  set_user_comments
    (<[user := default [] (user_comments s !! user) ++ [n]]> (user_comments s))
    (set_comments (<[n := new_comment s user content parent now]> (comments s))
       (set_next_comment_id (n + 1) s)).

(** ... and at the end of the list of post [post_id]. *)
Definition added_top (s : CommentSystem) (post_id : Z) (post : Post.t)
    (user content : string) (now : Z) : CommentSystem :=
  set_posts
    (dict_set post_id
       (Post.set_comments (Post.comments post ++ [next_comment_id s]) post)
       (posts s))
    (inserted s user content None now).

(** ... or at the end of the replies of [p], whose object was [pc]. *)
Definition added_reply (s : CommentSystem) (p : Z) (pc : Comment.t)
    (user content : string) (now : Z) : CommentSystem :=
  let s1 := inserted s user content (Some p) now in
  set_comments
    (<[p := Comment.set_replies (Comment.replies pc ++ [next_comment_id s]) pc]>
       (comments s1)) s1.

(** The flag of [p] raised. *)
Definition collapse (p : Z) (s : CommentSystem) : CommentSystem :=
  match comments s !! p with
  | Some c => set_comments (<[p := Comment.set_collapsed true c]> (comments s)) s
  | None => s
  end.

(** The store [delete_comment] leaves for a comment without replies. *)
Definition deleted (i : Z) (c : Comment.t) (s : CommentSystem) : CommentSystem :=
  let d := detached i c s in
  set_lock false (set_comments (delete i (comments d)) d).

(** ** The loop bodies of the recursive helpers *)

Definition count_step (fuel : nat) (cs : gmap Z Comment.t)
    (count : option nat) (reply : Z) : option nat :=
  n ← count; k ← _count_total_replies fuel cs reply; Some (n + k)%nat.

Definition flatten_step (fuel : nat) (cs : gmap Z Comment.t)
    (flat_list : option (list Z)) (comment : Z) : option (list Z) :=
  fl ← flat_list;
  c ← cs !! comment;
  if Comment.collapsed c then Some (fl ++ [comment])
  else sub ← _flatten_comments fuel cs (Comment.replies c);
       Some ((fl ++ [comment]) ++ sub).

(** ** Replies in a row *)

(** [add_comment] called once per entry of [rs], each time with the same
    parent [p]. *)
Fixpoint add_replies (fuel : nat) (post_id p : Z)
    (rs : list (string * string * Z)) : M unit :=
  match rs with
  | [] => ret tt
  | (user, content, now) :: rs' =>
      add_comment fuel post_id user content (Some p) now ;;;
      add_replies fuel post_id p rs'
  end.

(** A user and a content that pass the checks of [add_comment]. *)
Definition presentable (r : string * string * Z) : Prop :=
  r.1.1 ≠ EmptyString ∧ all_space r.1.2 = false.

(** The parent of a row of replies: [k] replies, all without replies, and
    collapsed exactly when [k] exceeds ten. *)
Definition row_parent (s : CommentSystem) (p : Z) (k : nat) : Prop :=
  ∃ c, comments s !! p = Some c ∧ length (Comment.replies c) = k ∧
       (∀ r, r ∈ Comment.replies c →
             ∃ rc, comments s !! r = Some rc ∧ Comment.replies rc = []) ∧
       Comment.collapsed c = (10 <? k)%nat.

(** * Properties *)

(** ** Strings *)

Lemma lstrip_empty s : lstrip s = EmptyString ↔ all_space s = true.
Proof.
  induction s as [|a r IH]; simpl; [done|].
  destruct (is_space a); simpl; [done|]. split; discriminate.
Qed.

Lemma all_space_rstrip s : all_space (rstrip s) = all_space s.
Proof.
  induction s as [|a r IH]; simpl; [done|].
  destruct (rstrip r) as [|b r'] eqn:E.
  - simpl in IH. rewrite <- IH. by destruct (is_space a) eqn:Ea; simpl; rewrite ?Ea.
  - by rewrite <- IH.
Qed.

Lemma strip_empty s : strip s = EmptyString ↔ all_space s = true.
Proof. unfold strip. by rewrite lstrip_empty, all_space_rstrip. Qed.


(** ** The lock *)

Lemma set_lock_release s : lock s = false → set_lock false (set_lock true s) = s.
Proof. destruct s; simpl; by intros ->. Qed.


Lemma with_lock_held {A} (body : M A) s : lock s = true → with_lock body s = Blocked s.
Proof. unfold with_lock. by intros ->. Qed.

Lemma with_lock_free {A} (body : M A) s :
  lock s = false →
  with_lock body s =
    match body (set_lock true s) with
    | Ret v s' => Ret v (set_lock false s')
    | Raise e s' => Raise e (set_lock false s')
    | Blocked s' => Blocked s'
    | OutOfFuel => OutOfFuel
    end.
Proof. unfold with_lock. by intros ->. Qed.

Ltac run := unfold bind, get, ret, modify, raise, fueled; simpl.
Ltac run_all :=
  unfold update_comment, post_append, bind, get, ret, modify, raise, fueled;
  simpl.

(** ** Voting *)

Lemma update_comment_present r f s c :
  comments s !! r = Some c →
  update_comment r f s = Ret tt (set_comments (<[r := f c]> (comments s)) s).
Proof. intros H. unfold update_comment. run. by rewrite H. Qed.

Lemma upvote_present s i c :
  lock s = false → comments s !! i = Some c →
  upvote_comment i s =
    Ret true (set_comments
      (<[i := Comment.set_vote_count (Comment.vote_count c + 1) c]> (comments s)) s).
Proof.
  intros Hl Hc. unfold upvote_comment. rewrite with_lock_free by done.
  run. rewrite bool_decide_eq_true_2 by eauto.
  run. rewrite update_comment_present with (c := c) by done.
  destruct s; simpl in *; by subst.
Qed.

Lemma downvote_present s i c :
  lock s = false → comments s !! i = Some c →
  downvote_comment i s =
    Ret true (set_comments
      (<[i := Comment.set_vote_count (Comment.vote_count c - 1) c]> (comments s)) s).
Proof.
  intros Hl Hc. unfold downvote_comment. rewrite with_lock_free by done.
  run. rewrite bool_decide_eq_true_2 by eauto.
  run. rewrite update_comment_present with (c := c) by done.
  destruct s; simpl in *; by subst.
Qed.

Lemma vote_absent s i :
  lock s = false → comments s !! i = None →
  upvote_comment i s = Ret false s ∧ downvote_comment i s = Ret false s.
Proof.
  intros Hl Hc. unfold upvote_comment, downvote_comment.
  rewrite !with_lock_free by done. run.
  rewrite bool_decide_eq_false_2 by (rewrite Hc; by intros [? ?]).
  by rewrite set_lock_release.
Qed.

(** C7.  On a store whose lock is free: for a comment [c] in the index
    under [i], [upvote_comment] returns true and leaves the store with the
    [vote_count] of [c] one higher, whatever integer it was, and nothing
    else changed; [downvote_comment] returns true and leaves it one lower;
    and a downvote after the upvote gives back the very store the two calls
    started from.  For an id outside the index both return false and leave
    the store as it is. *)
Theorem upvote_then_downvote (s : CommentSystem) (i : Z) :
  lock s = false →
  (∀ c, comments s !! i = Some c →
     let up := set_comments
       (<[i := Comment.set_vote_count (Comment.vote_count c + 1) c]>
          (comments s)) s in
     let down := set_comments
       (<[i := Comment.set_vote_count (Comment.vote_count c - 1) c]>
          (comments s)) s in
     upvote_comment i s = Ret true up ∧
     downvote_comment i s = Ret true down ∧
     downvote_comment i up = Ret true s) ∧
  (comments s !! i = None →
     upvote_comment i s = Ret false s ∧ downvote_comment i s = Ret false s).
Proof.
  intros Hl. split; [|by apply vote_absent].
  intros c Hc. simpl.
  split; [by apply upvote_present|]. split; [by apply downvote_present|].
  erewrite downvote_present; [|done|apply lookup_insert_eq].
  f_equal. destruct s as [ps cs uc nc np lk]; simpl in *.
  unfold set_comments; simpl. f_equal.
  rewrite insert_insert_eq. apply insert_id. rewrite Hc. f_equal.
  destruct c; unfold Comment.set_vote_count; simpl. f_equal. lia.
Qed.

Lemma upvote_then_downvote_witness :
  lock store_one_comment = false ∧
  ∃ s1 c1, upvote_comment 1 store_one_comment = Ret true s1 ∧
           comments s1 !! 1 = Some c1 ∧ Comment.vote_count c1 = 1 ∧
           downvote_comment 1 s1 = Ret true store_one_comment.
Proof.
  split; [reflexivity|].
  destruct (upvote_then_downvote store_one_comment 1 eq_refl) as [H _].
  destruct (H (Comment.mk 1 "User1" "First comment." 100 None [] 0 false)
              eq_refl) as (H1 & _ & H2).
  eexists _, _. split; [exact H1|]. split; [reflexivity|].
  split; [reflexivity|exact H2].
Defined.

(** ** Views: unknown posts and unknown view types *)

Lemma view_unknown_post fuel s post_id view_type :
  lock s = false → dict_get post_id (posts s) = None →
  get_comments_view fuel post_id view_type s = Ret [] s.
Proof.
  intros Hl Hp. unfold get_comments_view. rewrite with_lock_free by done.
  run. rewrite Hp. run. by rewrite set_lock_release.
Qed.

Lemma view_unknown_type fuel s post_id post view_type :
  lock s = false → dict_get post_id (posts s) = Some post →
  view_type ≠ "tree" → view_type ≠ "flat" →
  get_comments_view fuel post_id view_type s = Raise ValueError s.
Proof.
  intros Hl Hp H1 H2. unfold get_comments_view. rewrite with_lock_free by done.
  run. rewrite Hp. rewrite !bool_decide_eq_false_2 by done.
  run. by rewrite set_lock_release.
Qed.

Lemma view_raises fuel s post_id view_type e s' :
  get_comments_view fuel post_id view_type s = Raise e s' →
  is_Some (dict_get post_id (posts s)) ∧ e = ValueError ∧
  view_type ≠ "tree" ∧ view_type ≠ "flat".
Proof.
  unfold get_comments_view, with_lock. destruct (lock s); [done|].
  run. destruct (dict_get post_id (posts s)) as [post|]; [|done].
  run. repeat case_bool_decide; run; try done.
  - by destruct (_flatten_comments _ _ _).
  - intros [= <- _]. eauto.
Qed.

(** C8, as the code has it.  On a store whose lock is free,
    [get_comments_view] returns the empty list for a post id that is not in
    the store, and raises [ValueError] when the post is in the store and the
    view type is neither "tree" nor "flat". *)
Theorem view_unknown_post_or_type (fuel : nat) (s : CommentSystem)
    (post_id : Z) (view_type : string) :
  lock s = false →
  (dict_get post_id (posts s) = None →
     get_comments_view fuel post_id view_type s = Ret [] s) ∧
  (is_Some (dict_get post_id (posts s)) →
     view_type ≠ "tree" → view_type ≠ "flat" →
     get_comments_view fuel post_id view_type s = Raise ValueError s).
Proof.
  intros Hl. split; [by apply view_unknown_post|].
  intros [post Hp]. by eapply view_unknown_type.
Qed.

Lemma view_unknown_post_or_type_witness :
  lock store_one_comment = false ∧
  get_comments_view 0 2 "grid" store_one_comment = Ret [] store_one_comment ∧
  get_comments_view 0 1 "grid" store_one_comment
    = Raise ValueError store_one_comment.
Proof.
  split; [reflexivity|].
  destruct (view_unknown_post_or_type 0 store_one_comment 2 "grid" eq_refl)
    as [H1 _].
  destruct (view_unknown_post_or_type 0 store_one_comment 1 "grid" eq_refl)
    as [_ H2].
  split; [by apply H1|]. apply H2; [by eexists|done|done].
Defined.

(** C8 as stated fails: the view type "grid" is neither "tree" nor "flat",
    yet on the empty store, where post 1 does not exist, the call returns
    the empty list and raises nothing. *)
Lemma view_unknown_type_no_error :
  "grid" ≠ "tree" ∧ "grid" ≠ "flat" ∧
  ∀ fuel, get_comments_view fuel 1 "grid" init = Ret [] init ∧
          ¬ ∃ e s', get_comments_view fuel 1 "grid" init = Raise e s'.
Proof.
  split; [done|]. split; [done|]. intros fuel.
  assert (get_comments_view fuel 1 "grid" init = Ret [] init) as ->
    by by apply view_unknown_post.
  split; [done|]. by intros (e & s' & ?).
Qed.

(** C10.  For a post id that is not in the store, [get_comments_view]
    returns the empty list whatever the view type, "tree", "flat" or any
    other string; and whenever the call raises, the post is in the store
    and the view type is neither "tree" nor "flat". *)
Theorem view_checks_post_first (fuel : nat) (s : CommentSystem)
    (post_id : Z) (view_type : string) :
  (lock s = false → dict_get post_id (posts s) = None →
     get_comments_view fuel post_id view_type s = Ret [] s) ∧
  (∀ e s', get_comments_view fuel post_id view_type s = Raise e s' →
     is_Some (dict_get post_id (posts s)) ∧ e = ValueError ∧
     view_type ≠ "tree" ∧ view_type ≠ "flat").
Proof.
  split; [by apply view_unknown_post|]. intros e s'. apply view_raises.
Qed.

Lemma view_checks_post_first_witness :
  get_comments_view 0 5 "grid" store_one_comment = Ret [] store_one_comment ∧
  is_Some (dict_get 1 (posts store_one_comment)).
Proof.
  destruct (view_checks_post_first 0 store_one_comment 5 "grid") as [H1 _].
  destruct (view_checks_post_first 0 store_one_comment 1 "grid") as [_ H2].
  split; [by apply H1|].
  by apply (H2 ValueError store_one_comment).
Defined.

(** ** Rejected additions *)

Lemma add_comment_none fuel s post_id user content parent now :
  user = EmptyString ∨ all_space content = true ∨
  (lock s = false ∧
   (dict_get post_id (posts s) = None ∨
    ∃ p, parent = Some p ∧ comments s !! p = None)) →
  add_comment fuel post_id user content parent now s = Ret None s.
Proof.
  intros H. unfold add_comment.
  destruct (truthy user) eqn:Hu; simpl; [|done].
  destruct (truthy (strip content)) eqn:Hc; simpl; [|done].
  destruct H as [->|[H|[Hl H]]]; [done| |].
  { apply strip_empty in H. by rewrite H in Hc. }
  rewrite with_lock_free by done. run.
  destruct H as [H|(p & -> & H)].
  - rewrite bool_decide_eq_true_2 by done. run. by rewrite set_lock_release.
  - case_bool_decide; run; [by rewrite set_lock_release|].
    rewrite bool_decide_eq_true_2 by done. run.
    by rewrite set_lock_release.
Qed.

(** C5.  [add_comment] returns [None] and leaves the store as it was, the
    comment-id counter included, when the user is the empty string, or the
    content is empty or white space only (which is when [strip] leaves
    nothing); and, the lock being free, when the post id is not in the store
    or a parent id is given that is not in the index. *)
Theorem add_comment_rejects (fuel : nat) (s : CommentSystem) (post_id : Z)
    (user content : string) (parent : option Z) (now : Z) :
  user = EmptyString ∨ all_space content = true ∨
  (lock s = false ∧
   (dict_get post_id (posts s) = None ∨
    ∃ p, parent = Some p ∧ comments s !! p = None)) →
  add_comment fuel post_id user content parent now s = Ret None s ∧
  next_comment_id (after (add_comment fuel post_id user content parent now) s)
    = next_comment_id s ∧
  (all_space content = true ↔ strip content = EmptyString).
Proof.
  intros H. pose proof (add_comment_none fuel s post_id user content parent now H)
    as Hret.
  split; [done|]. split; [|symmetry; apply strip_empty].
  unfold after. by rewrite Hret.
Qed.

Lemma add_comment_rejects_witness :
  add_comment 8 1 "" "This is a comment." None 100 store_one_comment
    = Ret None store_one_comment ∧
  add_comment 8 1 "User1" "   " None 100 store_one_comment
    = Ret None store_one_comment ∧
  add_comment 8 9 "User1" "text" None 100 store_one_comment
    = Ret None store_one_comment ∧
  add_comment 8 1 "User1" "text" (Some 9) 100 store_one_comment
    = Ret None store_one_comment.
Proof.
  split; [|split; [|split]].
  - apply (add_comment_rejects 8 store_one_comment 1 "" "This is a comment."
             None 100). by left.
  - apply (add_comment_rejects 8 store_one_comment 1 "User1" "   " None 100).
    right; left; reflexivity.
  - apply (add_comment_rejects 8 store_one_comment 9 "User1" "text" None 100).
    right; right. split; [reflexivity|]. left; reflexivity.
  - apply (add_comment_rejects 8 store_one_comment 1 "User1" "text"
             (Some 9) 100).
    right; right. split; [reflexivity|]. right. exists 9. split; reflexivity.
Defined.

(** ** Deleting a comment that has replies *)

Lemma delete_comment_held fuel i s :
  lock s = true → delete_comment (S fuel) i s = Blocked s.
Proof. intros H. simpl. by apply with_lock_held. Qed.

(** The first recursive call decides the outcome when it cannot return. *)
Lemma delete_comment_stuck f (k : CommentSystem → outcome bool) s i c :
  lock s = false → comments s !! i = Some c →
  Comment.replies c ≠ [] →
  (∀ p, Comment.parent_comment_id c = Some p →
        p ≠ i ∧ is_Some (comments s !! p)) →
  (∀ s0 r, lock s0 = true → delete_comment f r s0 = k s0) →
  (∀ s0, k s0 = Blocked s0 ∨ k s0 = OutOfFuel) →
  delete_comment (S f) i s = k (detached i c s).
Proof.
  intros Hl Hc Hr Hp Hheld Hk.
  simpl. rewrite with_lock_free by done. run_all. rewrite Hc.
  unfold detached. simpl.
  destruct (Comment.replies c) as [|r rs] eqn:Er; [done|].
  destruct (Comment.parent_comment_id c) as [p|] eqn:Epar.
  - destruct (Hp p eq_refl) as [Hne [pc Hpc]]. rewrite Hpc.
    case_bool_decide; simpl; rewrite ?Hpc; simpl;
      (destruct (user_comments s !! Comment.user c) as [ids|]; simpl;
       [case_bool_decide; simpl|]);
      rewrite ?lookup_insert_ne by done; rewrite Hc; simpl; rewrite Er; simpl;
      unfold bind; rewrite Hheld by done;
      match goal with |- context [k ?s0] => by destruct (Hk s0) as [-> | ->] end.
  - simpl. destruct (user_comments s !! Comment.user c) as [ids|]; simpl;
      [case_bool_decide; simpl|];
      rewrite Hc; simpl; rewrite Er; simpl; unfold bind; rewrite Hheld by done;
      match goal with |- context [k ?s0] => by destruct (Hk s0) as [-> | ->] end.
Qed.

Lemma delete_comment_blocks fuel s i c :
  lock s = false → comments s !! i = Some c →
  Comment.replies c ≠ [] →
  (∀ p, Comment.parent_comment_id c = Some p →
        p ≠ i ∧ is_Some (comments s !! p)) →
  delete_comment (S (S fuel)) i s = Blocked (detached i c s).
Proof.
  intros. apply (delete_comment_stuck (S fuel) Blocked); try done.
  - intros. by apply delete_comment_held.
  - by left.
Qed.

Lemma delete_comment_no_return f s i c :
  lock s = false → comments s !! i = Some c →
  Comment.replies c ≠ [] →
  (∀ p, Comment.parent_comment_id c = Some p →
        p ≠ i ∧ is_Some (comments s !! p)) →
  ∀ v s', delete_comment f i s ≠ Ret v s'.
Proof.
  intros Hl Hc Hr Hp v s'. destruct f as [|[|f]].
  - done.
  - rewrite (delete_comment_stuck 0 (λ _, OutOfFuel) s i c); try done.
    by right.
  - by rewrite (delete_comment_blocks f s i c).
Qed.

Lemma detached_lock i c s : lock (detached i c s) = true.
Proof.
  unfold detached. simpl. repeat case_match; done.
Qed.


(** ** Lists and the post dictionary *)

Lemma remove_first_elem_of x y l : x ∈ remove_first y l → x ∈ l.
Proof.
  induction l as [|z l IH]; simpl; [done|].
  case_bool_decide; set_solver.
Qed.

Lemma remove_first_elem_of_ne x y l : x ≠ y → x ∈ l → x ∈ remove_first y l.
Proof.
  intros Hne. induction l as [|z l IH]; simpl; [done|].
  case_bool_decide; set_solver.
Qed.

Lemma remove_first_absent y l : y ∉ l → remove_first y l = l.
Proof.
  induction l as [|z l IH]; simpl; [done|]. intros H.
  rewrite bool_decide_eq_false_2 by set_solver. f_equal. apply IH. set_solver.
Qed.

Lemma remove_first_nodup y l : NoDup l → NoDup (remove_first y l) ∧ y ∉ remove_first y l.
Proof.
  induction l as [|z l IH]; simpl; [intros; split; [constructor|set_solver]|].
  intros [Hz Hl]%NoDup_cons. case_bool_decide as E.
  - subst. done.
  - destruct (IH Hl) as [IH1 IH2]. split.
    + constructor; [|done]. intros ?%remove_first_elem_of. done.
    + set_solver.
Qed.

Lemma remove_first_sorted y l :
  StronglySorted Z.lt l → StronglySorted Z.lt (remove_first y l).
Proof.
  induction l as [|z l IH]; simpl; [done|].
  intros [Hz Hl]%StronglySorted_cons. case_bool_decide; [done|].
  apply StronglySorted_cons. split; [|by apply IH].
  apply Forall_forall. intros x Hx%remove_first_elem_of.
  by eapply Forall_forall in Hz.
Qed.

Lemma sorted_lt_nodup l : StronglySorted Z.lt l → NoDup l.
Proof.
  induction l as [|z l IH]; [constructor|].
  intros [Hz Hl]%StronglySorted_cons. constructor; [|by apply IH].
  intros Hin. eapply Forall_forall in Hz; [|done]. lia.
Qed.

Lemma remove_first_app_l y l1 l2 :
  y ∈ l1 → remove_first y (l1 ++ l2) = remove_first y l1 ++ l2.
Proof.
  induction l1 as [|z l1 IH]; simpl; [set_solver|]. intros H.
  case_bool_decide; [done|]. simpl. f_equal. apply IH. set_solver.
Qed.

Lemma remove_first_app_r y l1 l2 :
  y ∉ l1 → remove_first y (l1 ++ l2) = l1 ++ remove_first y l2.
Proof.
  induction l1 as [|z l1 IH]; simpl; [done|]. intros H.
  rewrite bool_decide_eq_false_2 by set_solver. simpl. f_equal. apply IH. set_solver.
Qed.

Lemma top_level_remove c ps :
  top_level (remove_from_posts c ps) = remove_first c (top_level ps).
Proof.
  induction ps as [|[k post] ps IH]; simpl; [done|].
  unfold top_level in *. simpl. case_bool_decide.
  - simpl. by rewrite remove_first_app_l.
  - simpl. by rewrite remove_first_app_r, IH.
Qed.

Lemma dict_get_elem_of {V} k (d : list (Z * V)) v :
  dict_get k d = Some v → (k, v) ∈ d.
Proof.
  induction d as [|[k' v'] d IH]; simpl; [done|].
  case_bool_decide; [intros [= ->]; subst; left | right; auto].
Qed.

Lemma dict_get_fresh {V} k (d : list (Z * V)) :
  (∀ k' v, (k', v) ∈ d → k' ≠ k) → dict_get k d = None.
Proof.
  induction d as [|[k' v'] d IH]; simpl; [done|]. intros H.
  rewrite bool_decide_eq_false_2.
  - apply IH. intros k0 v0 Hin. apply (H k0 v0). by right.
  - intros ->. apply (H k' v'); [left|done].
Qed.

Lemma dict_set_fresh {V} k (v : V) d :
  (∀ k' v', (k', v') ∈ d → k' ≠ k) → dict_set k v d = d ++ [(k, v)].
Proof.
  induction d as [|[k' v'] d IH]; simpl; [done|]. intros H.
  rewrite bool_decide_eq_false_2.
  - f_equal. apply IH. intros k0 v0 Hin. apply (H k0 v0). by right.
  - intros ->. apply (H k' v'); [left|done].
Qed.

Lemma dict_set_elem_of {V} k (v : V) d k' v' :
  (k', v') ∈ dict_set k v d → (k', v') ∈ d ∨ (k', v') = (k, v).
Proof.
  induction d as [|[k0 v0] d IH]; simpl; [set_solver|].
  case_bool_decide; set_solver.
Qed.

Lemma top_level_app ps1 ps2 : top_level (ps1 ++ ps2) = top_level ps1 ++ top_level ps2.
Proof. unfold top_level. by rewrite map_app, concat_app. Qed.

(** Appending to the list of one post puts the new reference somewhere in
    the concatenation of all lists and moves nothing else. *)
Lemma top_level_append k post c ps :
  dict_get k ps = Some post →
  ∃ l1 l2, top_level ps = l1 ++ l2 ∧
    top_level (dict_set k (Post.set_comments (Post.comments post ++ [c]) post) ps)
      = l1 ++ c :: l2.
Proof.
  induction ps as [|[k' post'] ps IH]; simpl; [done|].
  case_bool_decide.
  - intros [= ->]. subst. exists (Post.comments post), (top_level ps).
    unfold top_level. simpl. split; [done|]. by rewrite <- app_assoc.
  - intros Hg. destruct (IH Hg) as (l1 & l2 & E1 & E2).
    exists (Post.comments post' ++ l1), l2. unfold top_level in *. simpl.
    rewrite E1, E2. by rewrite !app_assoc.
Qed.

(** ** Depth *)

Lemma hops_functional cs i n m : hops cs i n → hops cs i m → n = m.
Proof.
  intros H. revert m. induction H as [i c Hc Hp|i c p n Hc Hp H IH];
    intros m Hm; inversion Hm; simplify_eq; [done|]. f_equal. by apply IH.
Qed.

Lemma hops_depth_loop cs i n :
  hops cs i n →
  ∀ fuel d, (n < fuel)%nat → depth_loop fuel cs (Some i) d = Some (d + n)%nat.
Proof.
  induction 1 as [i c Hc Hp|i c p n Hc Hp H IH]; intros fuel d Hf;
    (destruct fuel as [|fuel]; [lia|]); simpl; rewrite Hc, Hp.
  - destruct fuel; simpl; f_equal; lia.
  - rewrite IH by lia. f_equal. lia.
Qed.

Lemma hops_get_comment_depth cs i n fuel :
  hops cs i n → (n < fuel)%nat → _get_comment_depth fuel cs i = Some n.
Proof. intros. unfold _get_comment_depth. by rewrite (hops_depth_loop cs i n). Qed.

(** A result of the loop is the number of hops, whatever the fuel was. *)
Lemma depth_loop_hops cs i c :
  cs !! i = Some c →
  (∀ j cj p, cs !! j = Some cj → Comment.parent_comment_id cj = Some p →
             is_Some (cs !! p)) →
  ∀ fuel d r, depth_loop fuel cs (Some i) d = Some r →
    ∃ n, hops cs i n ∧ r = (d + n)%nat.
Proof.
  intros Hc Hpar fuel. revert i c Hc.
  induction fuel as [|fuel IH]; intros i c Hc d r; simpl; rewrite Hc; [done|].
  destruct (Comment.parent_comment_id c) as [p|] eqn:Hp.
  - destruct (Hpar i c p Hc Hp) as [pc Hpc]. intros Hr.
    destruct (IH p pc Hpc _ _ Hr) as (n & Hn & ->).
    exists (S n). split; [by eapply hops_reply|lia].
  - destruct fuel; simpl; intros [= <-]; exists 0%nat;
      (split; [by eapply hops_root|lia]).
Qed.

Lemma same_shape_sym cs cs' : same_shape cs cs' → same_shape cs' cs.
Proof. intros H j. by rewrite H. Qed.

Lemma same_shape_lookup cs cs' j c :
  same_shape cs cs' → cs !! j = Some c →
  ∃ c', cs' !! j = Some c' ∧ Comment.id c' = Comment.id c ∧
        Comment.user c' = Comment.user c ∧
        Comment.parent_comment_id c' = Comment.parent_comment_id c ∧
        Comment.replies c' = Comment.replies c.
Proof.
  intros H Hc. specialize (H j). rewrite Hc in H. simpl in H.
  destruct (cs' !! j) as [c'|]; [|done]. exists c'.
  unfold shape in H. simpl in H. by simplify_eq.
Qed.

Lemma same_shape_insert cs i c c' :
  cs !! i = Some c → shape c' = shape c → same_shape cs (<[i := c']> cs).
Proof.
  intros Hc Hs j. destruct (decide (j = i)) as [->|].
  - rewrite lookup_insert_eq, Hc. simpl. by rewrite Hs.
  - by rewrite lookup_insert_ne.
Qed.

Lemma same_shape_hops cs cs' i n : same_shape cs cs' → hops cs i n → hops cs' i n.
Proof.
  intros Hs. induction 1 as [i c Hc Hp|i c p n Hc Hp H IH];
    destruct (same_shape_lookup _ _ _ _ Hs Hc) as (c' & Hc' & _ & _ & Hp' & _).
  - eapply hops_root; [done|congruence].
  - eapply hops_reply; [done| |done]. congruence.
Qed.

(** ** The invariant is kept *)

Lemma wf_same_shape s cs' :
  wf s → same_shape (comments s) cs' → wf (set_comments cs' s).
Proof.
  intros W Hs. pose proof (same_shape_sym _ _ Hs) as Hs'.
  constructor; simpl.
  - apply W.
  - apply W.
  - intros i c' Hc'.
    destruct (same_shape_lookup _ _ _ _ Hs' Hc') as (c & Hc & E1 & _).
    rewrite <- E1. by apply W.
  - intros i c' p Hc' Hp.
    destruct (same_shape_lookup _ _ _ _ Hs' Hc') as (c & Hc & _ & _ & E3 & _).
    rewrite <- E3 in Hp. destruct (wf_parent s W i c p Hc Hp) as [? (pc & Hpc & Hin)].
    split; [done|].
    destruct (same_shape_lookup _ _ _ _ Hs Hpc) as (pc' & Hpc' & _ & _ & _ & E4).
    exists pc'. split; [done|]. by rewrite E4.
  - intros i c' r Hc' Hr.
    destruct (same_shape_lookup _ _ _ _ Hs' Hc') as (c & Hc & _ & _ & _ & E4).
    rewrite <- E4 in Hr. destruct (wf_replies s W i c r Hc Hr) as (rc & Hrc & Hp).
    destruct (same_shape_lookup _ _ _ _ Hs Hrc) as (rc' & Hrc' & _ & _ & E3 & _).
    exists rc'. split; [done|]. by rewrite E3.
  - intros i c' Hc'.
    destruct (same_shape_lookup _ _ _ _ Hs' Hc') as (c & Hc & _ & _ & _ & E4).
    rewrite <- E4. by eapply W.
  - intros i c' Hc' Hp.
    destruct (same_shape_lookup _ _ _ _ Hs' Hc') as (c & Hc & _ & _ & E3 & _).
    rewrite <- E3 in Hp. by eapply W.
  - intros r Hr. destruct (wf_posts s W r Hr) as (rc & Hrc & Hp).
    destruct (same_shape_lookup _ _ _ _ Hs Hrc) as (rc' & Hrc' & _ & _ & E3 & _).
    exists rc'. split; [done|]. by rewrite E3.
  - apply W.
  - apply W.
  - intros u l Hl. destruct (wf_users s W u l Hl) as [Hsort Hmem].
    split; [done|]. intros i. rewrite Hmem. split.
    + intros (c & Hc & Hu).
      destruct (same_shape_lookup _ _ _ _ Hs Hc) as (c' & Hc' & _ & E2 & _).
      exists c'. split; [done|]. congruence.
    + intros (c' & Hc' & Hu).
      destruct (same_shape_lookup _ _ _ _ Hs' Hc') as (c & Hc & _ & E2 & _).
      exists c. split; [done|]. congruence.
  - intros i c' Hc'.
    destruct (same_shape_lookup _ _ _ _ Hs' Hc') as (c & Hc & _ & E2 & _).
    rewrite <- E2. by eapply W.
  - intros i n Hn. eapply (wf_depth s W i). by eapply same_shape_hops.
Qed.

(** ** What [add_comment] computes *)

Local Arguments Nat.leb : simpl never.
Local Arguments Nat.ltb : simpl never.

Lemma add_comment_top fuel s post_id post user content now :
  lock s = false → truthy user = true → truthy (strip content) = true →
  dict_get post_id (posts s) = Some post →
  add_comment fuel post_id user content None now s
    = Ret (Some (next_comment_id s)) (added_top s post_id post user content now).
Proof.
  intros Hl Hu Hc Hp. unfold add_comment. rewrite Hu, Hc. simpl.
  rewrite with_lock_free by done. run_all.
  rewrite bool_decide_eq_false_2 by (by rewrite Hp). run_all.
  rewrite Hp. simpl. f_equal.
  unfold added_top, inserted, new_comment.
  destruct s; simpl in *; by subst.
Qed.

Lemma add_comment_too_deep fuel s post_id post user content p pc now d :
  lock s = false → truthy user = true → truthy (strip content) = true →
  dict_get post_id (posts s) = Some post → comments s !! p = Some pc →
  _get_comment_depth fuel (comments s) p = Some d → (4 ≤ d)%nat →
  add_comment fuel post_id user content (Some p) now s = Ret None s.
Proof.
  intros Hl Hu Hc Hp Hpc Hd Hle. unfold add_comment. rewrite Hu, Hc. simpl.
  rewrite with_lock_free by done. run_all.
  rewrite bool_decide_eq_false_2 by (by rewrite Hp). run_all.
  rewrite bool_decide_eq_false_2 by (by rewrite Hpc). simpl. rewrite Hd. simpl.
  destruct (4 <=? d)%nat eqn:E; [|apply Nat.leb_gt in E; lia]. simpl.
  by rewrite set_lock_release.
Qed.

Lemma add_comment_reply fuel s post_id post user content p pc now d b :
  lock s = false → truthy user = true → truthy (strip content) = true →
  dict_get post_id (posts s) = Some post → comments s !! p = Some pc →
  p ≠ next_comment_id s →
  _get_comment_depth fuel (comments s) p = Some d → (d < 4)%nat →
  should_collapse_thread fuel
    (comments (added_reply s p pc user content now)) p = Some b →
  add_comment fuel post_id user content (Some p) now s
    = Ret (Some (next_comment_id s))
          (if b then collapse p (added_reply s p pc user content now)
           else added_reply s p pc user content now).
Proof.
  intros Hl Hu Hc Hp Hpc Hne Hd Hlt Hb. unfold add_comment. rewrite Hu, Hc. simpl.
  rewrite with_lock_free by done. run_all.
  rewrite bool_decide_eq_false_2 by (by rewrite Hp). run_all.
  rewrite bool_decide_eq_false_2 by (by rewrite Hpc). simpl. rewrite Hd. simpl.
  destruct (4 <=? d)%nat eqn:E; [apply Nat.leb_le in E; lia|]. simpl.
  rewrite lookup_insert_ne by done. rewrite Hpc. simpl.
  unfold added_reply, inserted, new_comment in Hb. simpl in Hb.
  rewrite Hb. simpl. destruct b; simpl.
  - rewrite lookup_insert_eq. simpl. f_equal.
    unfold collapse, added_reply, inserted, new_comment. simpl.
    rewrite lookup_insert_eq. destruct s; simpl in *; by subst.
  - f_equal. unfold added_reply, inserted, new_comment.
    destruct s; simpl in *; by subst.
Qed.

(** Every outcome of [add_comment] on a store whose lock is free. *)
Lemma add_comment_outcome fuel s post_id user content parent now :
  lock s = false →
  (∀ i c, comments s !! i = Some c → i ≠ next_comment_id s) →
  let o := add_comment fuel post_id user content parent now s in
  o = OutOfFuel ∨ o = Ret None s ∨
  (∃ post, parent = None ∧ dict_get post_id (posts s) = Some post ∧
     o = Ret (Some (next_comment_id s))
             (added_top s post_id post user content now)) ∨
  (∃ p pc d (b : bool), parent = Some p ∧ comments s !! p = Some pc ∧
     _get_comment_depth fuel (comments s) p = Some d ∧ (d < 4)%nat ∧
     should_collapse_thread fuel
       (comments (added_reply s p pc user content now)) p = Some b ∧
     o = Ret (Some (next_comment_id s))
             (if b then collapse p (added_reply s p pc user content now)
              else added_reply s p pc user content now)).
Proof.
  intros Hl Hfresh. simpl.
  destruct (truthy user) eqn:Hu;
    [|unfold add_comment; rewrite Hu; simpl; auto].
  destruct (truthy (strip content)) eqn:Hc;
    [|unfold add_comment; rewrite Hu, Hc; simpl; auto].
  destruct (dict_get post_id (posts s)) as [post|] eqn:Hp; cycle 1.
  { rewrite add_comment_none by auto. auto. }
  destruct parent as [p|]; cycle 1.
  { rewrite (add_comment_top fuel s post_id post) by done.
    right; right; left. by exists post. }
  destruct (comments s !! p) as [pc|] eqn:Hpc; cycle 1.
  { rewrite add_comment_none by (right; right; eauto). auto. }
  destruct (_get_comment_depth fuel (comments s) p) as [d|] eqn:Hd; cycle 1.
  { left. unfold add_comment. rewrite Hu, Hc. simpl.
    rewrite with_lock_free by done. run_all.
    rewrite bool_decide_eq_false_2 by (by rewrite Hp). run_all.
    rewrite bool_decide_eq_false_2 by (by rewrite Hpc). simpl. by rewrite Hd. }
  destruct (decide (4 ≤ d)%nat) as [Hle|Hlt].
  { rewrite (add_comment_too_deep fuel s post_id post user content p pc now d)
      by done. auto. }
  assert (p ≠ next_comment_id s) as Hne by (by eapply Hfresh).
  assert (d < 4)%nat as Hd4 by lia.
  destruct (should_collapse_thread fuel
    (comments (added_reply s p pc user content now)) p) as [b|] eqn:Hb.
  - rewrite (add_comment_reply fuel s post_id post user content p pc now d b)
      by done.
    right; right; right. by exists p, pc, d, b.
  - left. unfold add_comment. rewrite Hu, Hc. simpl.
    rewrite with_lock_free by done. run_all.
    rewrite bool_decide_eq_false_2 by (by rewrite Hp). run_all.
    rewrite bool_decide_eq_false_2 by (by rewrite Hpc). simpl. rewrite Hd. simpl.
    destruct (4 <=? d)%nat eqn:E; [apply Nat.leb_le in E; lia|]. simpl.
    rewrite lookup_insert_ne by done. rewrite Hpc. simpl.
    unfold added_reply, inserted, new_comment in Hb. simpl in Hb.
    by rewrite Hb.
Qed.

Lemma add_comment_completes fuel s post_id user content parent now s' :
  lock s = false →
  (∀ i c, comments s !! i = Some c → i ≠ next_comment_id s) →
  completes (add_comment fuel post_id user content parent now s) s' →
  s' = s ∨
  (∃ post, parent = None ∧ dict_get post_id (posts s) = Some post ∧
           s' = added_top s post_id post user content now) ∨
  (∃ p pc d, parent = Some p ∧ comments s !! p = Some pc ∧
     _get_comment_depth fuel (comments s) p = Some d ∧ (d < 4)%nat ∧
     (s' = added_reply s p pc user content now ∨
      s' = collapse p (added_reply s p pc user content now))).
Proof.
  intros Hl Hfresh.
  destruct (add_comment_outcome fuel s post_id user content parent now Hl Hfresh)
    as [->|[->|[(post & -> & Hp & ->)|(p & pc & d & b & -> & Hpc & Hd & Hd4 & Hb & ->)]]];
    simpl; [done|auto|intros ->|intros ->].
  - right; left. by exists post.
  - right; right. exists p, pc, d. destruct b; auto 10.
Qed.

(** ** The invariant after an addition *)

Lemma wf_fresh s i c :
  wf s → comments s !! i = Some c → i ≠ next_comment_id s.
Proof. intros W Hc. destruct (wf_ids s W i c Hc). lia. Qed.

Lemma wf_next_absent s : wf s → comments s !! next_comment_id s = None.
Proof.
  intros W. destruct (comments s !! next_comment_id s) as [c|] eqn:E; [|done].
  by destruct (wf_fresh s _ c W E).
Qed.

Lemma added_reply_lookup s p pc user content now j :
  p ≠ next_comment_id s →
  comments (added_reply s p pc user content now) !! j =
    if decide (j = p)
    then Some (Comment.set_replies (Comment.replies pc ++ [next_comment_id s]) pc)
    else if decide (j = next_comment_id s)
         then Some (new_comment s user content (Some p) now)
         else comments s !! j.
Proof.
  intros Hne. unfold added_reply, inserted. simpl.
  repeat case_decide; subst.
  - by rewrite lookup_insert_eq.
  - rewrite lookup_insert_ne by done. by rewrite lookup_insert_eq.
  - by rewrite !lookup_insert_ne.
Qed.

Lemma inserted_users s user content parent now u :
  user_comments (inserted s user content parent now) !! u =
    if decide (u = user)
    then Some (default [] (user_comments s !! user) ++ [next_comment_id s])
    else user_comments s !! u.
Proof.
  unfold inserted. simpl. case_decide; subst.
  - by rewrite lookup_insert_eq.
  - by rewrite lookup_insert_ne.
Qed.

(** The author's list stays right when a fresh id goes last. *)
Lemma wf_users_inserted s user content parent now (cs' : gmap Z Comment.t) :
  wf s →
  (∀ j c', cs' !! j = Some c' →
     (j = next_comment_id s ∧ Comment.user c' = user) ∨
     (j ≠ next_comment_id s ∧ ∃ c, comments s !! j = Some c ∧
        Comment.user c = Comment.user c')) →
  (∀ j c, comments s !! j = Some c →
     ∃ c', cs' !! j = Some c' ∧ Comment.user c' = Comment.user c) →
  (∃ c', cs' !! next_comment_id s = Some c' ∧ Comment.user c' = user) →
  ∀ u l, user_comments (inserted s user content parent now) !! u = Some l →
    StronglySorted Z.lt l ∧
    ∀ i, i ∈ l ↔ ∃ c, cs' !! i = Some c ∧ Comment.user c = u.
Proof.
  intros W Hback Hfwd Hnew u l. rewrite inserted_users. case_decide as Eu.
  - subst u. intros [= <-].
    assert (∃ l0, default [] (user_comments s !! user) = l0 ∧
              StronglySorted Z.lt l0 ∧
              ∀ i, i ∈ l0 ↔ ∃ c, comments s !! i = Some c ∧ Comment.user c = user)
      as (l0 & -> & Hsort & Hmem).
    { destruct (user_comments s !! user) as [l0|] eqn:El; simpl.
      - exists l0. split; [done|]. by apply W.
      - exists []. split; [done|]. split; [constructor|].
        intros i. split; [by intros ?%elem_of_nil|].
        intros (c & Hc & Hu). destruct (wf_users_dom s W i c Hc) as [l1 Hl1].
        congruence. }
    split.
    + apply StronglySorted_app. split; [|split; [done|repeat constructor]].
      intros x y Hx ->%list_elem_of_singleton.
      apply Hmem in Hx as (c & Hc & _). destruct (wf_ids s W x c Hc). lia.
    + intros i. rewrite elem_of_app, list_elem_of_singleton, Hmem. split.
      * intros [(c & Hc & Hu)| ->]; [|done].
        destruct (Hfwd i c Hc) as (c' & Hc' & E). exists c'. split; [done|congruence].
      * intros (c' & Hc' & Hu).
        destruct (Hback i c' Hc') as [[-> _]|(Hne & c & Hc & E)]; [by right|].
        left. exists c. split; [done|congruence].
  - intros Hl. destruct (wf_users s W u l Hl) as [Hsort Hmem]. split; [done|].
    intros i. rewrite Hmem. split.
    + intros (c & Hc & Hu).
      destruct (Hfwd i c Hc) as (c' & Hc' & E). exists c'. split; [done|congruence].
    + intros (c' & Hc' & Hu).
      destruct (Hback i c' Hc') as [[-> E]|(Hne & c & Hc & E)]; [congruence|].
      exists c. split; [done|congruence].
Qed.

(** Hops in the store after an addition are hops before it, for every
    comment but the new one. *)
Lemma hops_before_addition s (cs' : gmap Z Comment.t) j m :
  wf s →
  (∀ i c', cs' !! i = Some c' → i ≠ next_comment_id s →
     ∃ c, comments s !! i = Some c ∧
          Comment.parent_comment_id c = Comment.parent_comment_id c') →
  hops cs' j m → j ≠ next_comment_id s → hops (comments s) j m.
Proof.
  intros W Hback. induction 1 as [i c' Hc' Hp|i c' p n Hc' Hp H IH]; intros Hne.
  - destruct (Hback i c' Hc' Hne) as (c & Hc & E).
    eapply hops_root; [done|congruence].
  - destruct (Hback i c' Hc' Hne) as (c & Hc & E).
    rewrite <- E in Hp. destruct (wf_parent s W i c p Hc Hp) as [_ (pc & Hpc & _)].
    eapply hops_reply; [done..|]. apply IH. by eapply wf_fresh.
Qed.

Lemma wf_added_reply s p pc d user content now :
  wf s → comments s !! p = Some pc → hops (comments s) p d → (d < 4)%nat →
  wf (added_reply s p pc user content now).
Proof.
  intros W Hpc Hd Hd4.
  pose proof (wf_fresh s p pc W Hpc) as Hne.
  pose proof (wf_next_absent s W) as Hnone.
  pose proof (wf_next s W) as Hpos.
  pose proof (added_reply_lookup s p pc user content now) as L.
  set (s' := added_reply s p pc user content now) in *.
  set (n := next_comment_id s) in *.
  assert (∀ i c', comments s' !! i = Some c' → i ≠ n →
            ∃ c, comments s !! i = Some c ∧ Comment.id c' = Comment.id c ∧
              Comment.user c' = Comment.user c ∧
              Comment.parent_comment_id c' = Comment.parent_comment_id c ∧
              Comment.replies c' =
                if decide (i = p) then Comment.replies c ++ [n]
                else Comment.replies c) as Hback.
  { intros i c'. rewrite L by done. repeat case_decide; subst; try done.
    - intros [= <-] _. by exists pc.
    - intros Hc _. by exists c'. }
  assert (∀ i c, comments s !! i = Some c →
            ∃ c', comments s' !! i = Some c' ∧ Comment.id c' = Comment.id c ∧
              Comment.user c' = Comment.user c ∧
              Comment.parent_comment_id c' = Comment.parent_comment_id c ∧
              Comment.replies c' =
                if decide (i = p) then Comment.replies c ++ [n]
                else Comment.replies c) as Hfwd.
  { intros i c Hc. rewrite L by done. repeat case_decide; subst.
    - simplify_eq. by eexists.
    - congruence.
    - by exists c. }
  assert (comments s' !! n = Some (new_comment s user content (Some p) now))
    as Hnew.
  { rewrite L by done. rewrite decide_False by done. by rewrite decide_True. }
  constructor.
  - apply W.
  - simpl. fold n. lia.
  - intros i c' Hc'. simpl. fold n. destruct (decide (i = n)) as [->|Hi].
    + rewrite Hnew in Hc'. simplify_eq. simpl. fold n. lia.
    + destruct (Hback i c' Hc' Hi) as (c & Hc & E1 & _).
      destruct (wf_ids s W i c Hc) as [Hid Hrange]. fold n in Hrange.
      split; [congruence|lia].
  - intros i c' q Hc' Hq. destruct (decide (i = n)) as [->|Hi].
    + rewrite Hnew in Hc'. simplify_eq. simpl in Hq. simplify_eq.
      destruct (wf_ids s W q pc Hpc) as [_ Hlt]. fold n in Hlt. split; [lia|].
      destruct (Hfwd q pc Hpc) as (pc' & Hpc' & _ & _ & _ & E4).
      exists pc'. split; [done|].
      rewrite decide_True in E4 by done. rewrite E4. set_solver.
    + destruct (Hback i c' Hc' Hi) as (c & Hc & _ & _ & E3 & _).
      rewrite E3 in Hq.
      destruct (wf_parent s W i c q Hc Hq) as [Hlt (qc & Hqc & Hin)].
      split; [done|].
      destruct (Hfwd q qc Hqc) as (qc' & Hqc' & _ & _ & _ & E4).
      exists qc'. split; [done|]. rewrite E4. case_decide; set_solver.
  - intros i c' r Hc' Hr. destruct (decide (i = n)) as [->|Hi].
    + rewrite Hnew in Hc'. simplify_eq. simpl in Hr. set_solver.
    + destruct (Hback i c' Hc' Hi) as (c & Hc & _ & _ & _ & E4).
      rewrite E4 in Hr.
      assert (r = n ∧ i = p ∨ r ∈ Comment.replies c) as [[-> ->]|Hr'].
      { case_decide; set_solver. }
      * exists (new_comment s user content (Some p) now). by split.
      * destruct (wf_replies s W i c r Hc Hr') as (rc & Hrc & Hp).
        destruct (Hfwd r rc Hrc) as (rc' & Hrc' & _ & _ & E3 & _). exists rc'.
        split; [done|]. congruence.
  - intros i c' Hc'. destruct (decide (i = n)) as [->|Hi].
    + rewrite Hnew in Hc'. simplify_eq. simpl. constructor.
    + destruct (Hback i c' Hc' Hi) as (c & Hc & _ & _ & _ & E4).
      rewrite E4. pose proof (wf_replies_nodup s W i c Hc) as Hnd.
      case_decide; [|done]. apply NoDup_app. split; [done|].
      split; [|repeat constructor; set_solver].
      intros x Hx ->%list_elem_of_singleton.
      destruct (wf_replies s W i c _ Hc Hx) as (rc & Hrc & _). congruence.
  - intros i c' Hc' Hp'. destruct (decide (i = n)) as [->|Hi].
    + rewrite Hnew in Hc'. by simplify_eq.
    + destruct (Hback i c' Hc' Hi) as (c & Hc & _ & _ & E3 & _).
      rewrite E3 in Hp'. by apply (wf_roots s W i c).
  - intros r Hr. destruct (wf_posts s W r Hr) as (rc & Hrc & Hp).
    destruct (Hfwd r rc Hrc) as (rc' & Hrc' & _ & _ & E3 & _). exists rc'.
    split; [done|]. congruence.
  - apply W.
  - apply W.
  - eapply (wf_users_inserted s user content (Some p) now); [done| | |].
    + intros j c' Hc'. destruct (decide (j = n)) as [->|Hj].
      * left. rewrite Hnew in Hc'. by simplify_eq.
      * right. split; [done|].
        destruct (Hback j c' Hc' Hj) as (c & Hc & _ & E2 & _).
        exists c. by split.
    + intros j c Hc. destruct (Hfwd j c Hc) as (c' & Hc' & _ & E2 & _).
      exists c'. by split.
    + by eexists.
  - intros i c' Hc'. unfold s', added_reply. simpl.
    destruct (decide (Comment.user c' = user)) as [->|Hu].
    + by rewrite lookup_insert_eq.
    + rewrite lookup_insert_ne by done.
      destruct (decide (i = n)) as [->|Hi].
      * rewrite Hnew in Hc'. by simplify_eq.
      * destruct (Hback i c' Hc' Hi) as (c & Hc & _ & E2 & _).
        rewrite E2. by apply (wf_users_dom s W i).
  - intros i m Hm.
    assert (∀ j c', comments s' !! j = Some c' → j ≠ n →
              ∃ c, comments s !! j = Some c ∧
                Comment.parent_comment_id c = Comment.parent_comment_id c') as Hb'.
    { intros j c' Hc' Hj. destruct (Hback j c' Hc' Hj) as (c & Hc & _ & _ & E3 & _).
      exists c. by split. }
    destruct (decide (i = n)) as [->|Hi].
    + inversion Hm as [? c' Hc' Hp'|? c' q k Hc' Hp' Hq]; subst;
        rewrite Hnew in Hc'; simplify_eq; simpl in Hp'; simplify_eq.
      pose proof (hops_before_addition s _ _ _ W Hb' Hq Hne) as Hq'.
      pose proof (hops_functional _ _ _ _ Hd Hq'). lia.
    + apply (wf_depth s W i). by eapply hops_before_addition.
Qed.

Lemma added_top_lookup s post_id post user content now j :
  comments (added_top s post_id post user content now) !! j =
    if decide (j = next_comment_id s)
    then Some (new_comment s user content None now)
    else comments s !! j.
Proof.
  unfold added_top, inserted. simpl. case_decide; subst.
  - by rewrite lookup_insert_eq.
  - by rewrite lookup_insert_ne.
Qed.

Lemma wf_added_top s post_id post user content now :
  wf s → dict_get post_id (posts s) = Some post →
  wf (added_top s post_id post user content now).
Proof.
  intros W Hpost.
  pose proof (wf_next_absent s W) as Hnone.
  pose proof (wf_next s W) as Hpos.
  pose proof (added_top_lookup s post_id post user content now) as L.
  destruct (top_level_append post_id post (next_comment_id s) (posts s) Hpost)
    as (l1 & l2 & Eold & Enew).
  set (s' := added_top s post_id post user content now) in *.
  set (n := next_comment_id s) in *.
  assert (posts s' = dict_set post_id
            (Post.set_comments (Post.comments post ++ [n]) post) (posts s))
    as Eposts by done.
  assert (∀ i c, comments s' !! i = Some c → i ≠ n → comments s !! i = Some c)
    as Hback.
  { intros i c. rewrite L. by case_decide. }
  assert (∀ i c, comments s !! i = Some c → comments s' !! i = Some c) as Hfwd.
  { intros i c Hc. rewrite L. case_decide; [congruence|done]. }
  assert (comments s' !! n = Some (new_comment s user content None now)) as Hnew.
  { rewrite L. by rewrite decide_True. }
  assert (∀ x, x ∈ top_level (posts s') ↔ x ∈ top_level (posts s) ∨ x = n)
    as Htop.
  { intros x. rewrite Eposts, Enew, Eold. set_solver. }
  constructor.
  - apply W.
  - simpl. fold n. lia.
  - intros i c Hc. simpl. fold n. destruct (decide (i = n)) as [->|Hi].
    + rewrite Hnew in Hc. simplify_eq. simpl. fold n. lia.
    + destruct (wf_ids s W i c (Hback i c Hc Hi)) as [Hid Hrange].
      fold n in Hrange. split; [done|lia].
  - intros i c q Hc Hq. destruct (decide (i = n)) as [->|Hi].
    + rewrite Hnew in Hc. by simplify_eq.
    + destruct (wf_parent s W i c q (Hback i c Hc Hi) Hq)
        as [Hlt (qc & Hqc & Hin)].
      split; [done|]. exists qc. split; [by apply Hfwd|done].
  - intros i c r Hc Hr. destruct (decide (i = n)) as [->|Hi].
    + rewrite Hnew in Hc. simplify_eq. simpl in Hr. set_solver.
    + destruct (wf_replies s W i c r (Hback i c Hc Hi) Hr) as (rc & Hrc & Hp).
      exists rc. split; [by apply Hfwd|done].
  - intros i c Hc. destruct (decide (i = n)) as [->|Hi].
    + rewrite Hnew in Hc. simplify_eq. simpl. constructor.
    + by apply (wf_replies_nodup s W i c), Hback.
  - intros i c Hc Hp. apply Htop. destruct (decide (i = n)) as [->|Hi]; [by right|].
    left. apply (wf_roots s W i c); [by apply Hback|done].
  - intros r [Hr| ->]%Htop.
    + destruct (wf_posts s W r Hr) as (rc & Hrc & Hp).
      exists rc. split; [by apply Hfwd|done].
    + by eexists.
  - rewrite Eposts, Enew. pose proof (wf_posts_nodup s W) as Hnd.
    rewrite Eold in Hnd. apply NoDup_app in Hnd as (Hn1 & Hdis & Hn2).
    assert (n ∉ l1 ++ l2) as Hfresh.
    { intros Hin. rewrite <- Eold in Hin.
      destruct (wf_posts s W n Hin) as (rc & Hrc & _). congruence. }
    apply NoDup_app. split; [done|]. split.
    + intros x Hx [->|Hx2]%elem_of_cons; [|by eapply Hdis].
      apply Hfresh. set_solver.
    + constructor; [|done]. set_solver.
  - intros k post' Hin. rewrite Eposts in Hin. simpl.
    apply dict_set_elem_of in Hin as [Hin|[= -> _]].
    + by apply (wf_post_ids s W k post').
    + apply (wf_post_ids s W post_id post). by apply dict_get_elem_of.
  - eapply (wf_users_inserted s user content None now); [done| | |].
    + intros j c Hc. destruct (decide (j = n)) as [->|Hj].
      * left. rewrite Hnew in Hc. by simplify_eq.
      * right. split; [done|]. exists c. split; [by apply Hback|done].
    + intros j c Hc. exists c. split; [by apply Hfwd|done].
    + by eexists.
  - intros i c Hc. unfold s', added_top. simpl.
    destruct (decide (Comment.user c = user)) as [->|Hu].
    + by rewrite lookup_insert_eq.
    + rewrite lookup_insert_ne by done.
      destruct (decide (i = n)) as [->|Hi].
      * rewrite Hnew in Hc. by simplify_eq.
      * by apply (wf_users_dom s W i), Hback.
  - intros i m Hm.
    assert (∀ j c', comments s' !! j = Some c' → j ≠ n →
              ∃ c, comments s !! j = Some c ∧
                Comment.parent_comment_id c = Comment.parent_comment_id c') as Hb'.
    { intros j c' Hc' Hj. exists c'. split; [by apply Hback|done]. }
    destruct (decide (i = n)) as [->|Hi].
    + inversion Hm as [? c' Hc' Hp'|? c' q k Hc' Hp' Hq]; subst; [lia|].
      rewrite Hnew in Hc'. by simplify_eq.
    + apply (wf_depth s W i). by eapply hops_before_addition.
Qed.

Lemma wf_collapse s p : wf s → wf (collapse p s).
Proof.
  intros W. unfold collapse. destruct (comments s !! p) as [c|] eqn:Hc; [|done].
  apply wf_same_shape; [done|]. by apply (same_shape_insert _ _ c).
Qed.

Lemma wf_create_post s title :
  wf s →
  create_post title s =
    Ret (next_post_id s)
        (set_posts (dict_set (next_post_id s)
                      (Post.mk (next_post_id s) title []) (posts s))
           (set_next_post_id (next_post_id s + 1) s)) ∧
  wf (set_posts (dict_set (next_post_id s)
                   (Post.mk (next_post_id s) title []) (posts s))
        (set_next_post_id (next_post_id s + 1) s)).
Proof.
  intros W. split.
  { unfold create_post. rewrite with_lock_free by apply W. run.
    f_equal. pose proof (wf_lock s W). destruct s; simpl in *; by subst. }
  assert (dict_set (next_post_id s) (Post.mk (next_post_id s) title []) (posts s)
          = posts s ++ [(next_post_id s, Post.mk (next_post_id s) title [])])
    as E.
  { apply dict_set_fresh. intros k v Hin. pose proof (wf_post_ids s W k v Hin). lia. }
  assert (top_level (posts s ++ [(next_post_id s, Post.mk (next_post_id s) title [])])
          = top_level (posts s)) as Et.
  { rewrite top_level_app. unfold top_level at 2. simpl. by rewrite app_nil_r. }
  constructor; simpl; rewrite ?E, ?Et; try apply W.
  intros k post [Hin|Hin%list_elem_of_singleton]%elem_of_app.
  - pose proof (wf_post_ids s W k post Hin). lia.
  - simplify_eq. lia.
Qed.

(** ** What [delete_comment] computes, and the invariant after it *)

Lemma delete_comment_absent fuel s i :
  lock s = false → comments s !! i = None →
  delete_comment (S fuel) i s = Ret false s.
Proof.
  intros Hl Hc. simpl. rewrite with_lock_free by done. run. rewrite Hc.
  run. by rewrite set_lock_release.
Qed.

Lemma delete_comment_leaf fuel s i c :
  lock s = false → comments s !! i = Some c → Comment.replies c = [] →
  (∀ p, Comment.parent_comment_id c = Some p →
        p ≠ i ∧ is_Some (comments s !! p)) →
  delete_comment (S fuel) i s = Ret true (deleted i c s).
Proof.
  intros Hl Hc Hr Hp.
  simpl. rewrite with_lock_free by done. run_all. rewrite Hc.
  unfold deleted, detached. simpl.
  destruct (Comment.parent_comment_id c) as [p|] eqn:Epar.
  - destruct (Hp p eq_refl) as [Hne [pc Hpc]]. rewrite Hpc.
    case_bool_decide; simpl; rewrite ?Hpc; simpl;
      (destruct (user_comments s !! Comment.user c) as [ids|]; simpl;
       [case_bool_decide; simpl|]);
      rewrite ?lookup_insert_ne by done; rewrite Hc; simpl; rewrite Hr; simpl;
      rewrite ?lookup_insert_ne by done; rewrite Hc; simpl; done.
  - simpl. destruct (user_comments s !! Comment.user c) as [ids|]; simpl;
      [case_bool_decide; simpl|];
      rewrite Hc; simpl; rewrite Hr; simpl; rewrite Hc; simpl; done.
Qed.

Lemma wf_parent_cond s i c :
  wf s → comments s !! i = Some c →
  ∀ p, Comment.parent_comment_id c = Some p → p ≠ i ∧ is_Some (comments s !! p).
Proof.
  intros W Hc p Hp. destruct (wf_parent s W i c p Hc Hp) as [Hlt (pc & Hpc & _)].
  split; [lia|eauto].
Qed.

(** Every way [delete_comment] can complete on a reachable store. *)
Lemma delete_comment_completes fuel s i s' :
  wf s → completes (delete_comment fuel i s) s' →
  s' = s ∨ ∃ c, comments s !! i = Some c ∧ Comment.replies c = [] ∧
                s' = deleted i c s.
Proof.
  intros W. pose proof (wf_lock s W) as Hl.
  destruct fuel as [|fuel]; [done|].
  destruct (comments s !! i) as [c|] eqn:Hc; cycle 1.
  { rewrite delete_comment_absent by done. simpl. auto. }
  destruct (Comment.replies c) as [|r rs] eqn:Hr.
  - rewrite (delete_comment_leaf fuel s i c) by eauto using wf_parent_cond.
    simpl. intros ->. right. by exists c.
  - destruct fuel as [|fuel].
    + rewrite (delete_comment_stuck 0 (λ _, OutOfFuel) s i c);
        eauto using wf_parent_cond; [done|by rewrite Hr].
    + rewrite (delete_comment_blocks fuel s i c);
        eauto using wf_parent_cond; [done|by rewrite Hr].
Qed.

Lemma set_replies_same c : Comment.set_replies (Comment.replies c) c = c.
Proof. by destruct c. Qed.

Lemma remove_from_posts_keys i ps k post :
  (k, post) ∈ remove_from_posts i ps → ∃ post', (k, post') ∈ ps.
Proof.
  induction ps as [|[k' post'] ps IH]; simpl; [by intros ?%elem_of_nil|].
  case_bool_decide.
  - intros [[= -> _]|Hin]%elem_of_cons; [eexists; left|].
    exists post. by right.
  - intros [[= -> ->]|Hin]%elem_of_cons; [eexists; left|].
    destruct (IH Hin) as [post'' ?]. exists post''. by right.
Qed.

(** The store after a deletion, field by field. *)
Lemma deleted_fields s i c :
  wf s → comments s !! i = Some c →
  let s' := deleted i c s in
  lock s' = false ∧ next_comment_id s' = next_comment_id s ∧
  next_post_id s' = next_post_id s ∧
  (∀ j, comments s' !! j =
     if decide (j = i) then None
     else (λ cj, Comment.set_replies (remove_first i (Comment.replies cj)) cj)
            <$> comments s !! j) ∧
  top_level (posts s') = remove_first i (top_level (posts s)) ∧
  (∀ k post, (k, post) ∈ posts s' → ∃ post', (k, post') ∈ posts s) ∧
  (∀ u, user_comments s' !! u = remove_first i <$> user_comments s !! u).
Proof.
  intros W Hc.
  assert (∀ j cj, comments s !! j = Some cj →
            Comment.parent_comment_id c ≠ Some j →
            Comment.set_replies (remove_first i (Comment.replies cj)) cj = cj)
    as Hother.
  { intros j cj Hcj Hne. rewrite remove_first_absent; [apply set_replies_same|].
    intros Hin. destruct (wf_replies s W j cj i Hcj Hin) as (c0 & Hc0 & Hp0).
    congruence. }
  assert (∀ u l, user_comments s !! u = Some l → u ≠ Comment.user c →
            remove_first i l = l) as Huother.
  { intros u l Hl Hne. apply remove_first_absent. intros Hin.
    destruct (wf_users s W u l Hl) as [_ Hmem].
    apply Hmem in Hin as (c0 & Hc0 & Hu0). congruence. }
  destruct (wf_users_dom s W i c Hc) as [ids Hids].
  assert (i ∈ ids) as Hin.
  { destruct (wf_users s W _ ids Hids) as [_ Hmem]. apply Hmem. eauto. }
  assert (∀ p, Comment.parent_comment_id c = Some p →
            ∃ pc, comments s !! p = Some pc ∧ i ∈ Comment.replies pc) as Hpar.
  { intros p Hp. by destruct (wf_parent s W i c p Hc Hp) as [_ ?]. }
  assert (Comment.parent_comment_id c ≠ None → i ∉ top_level (posts s)) as Hnot.
  { intros Hp Hi. destruct (wf_posts s W i Hi) as (c0 & Hc0 & Hp0). congruence. }
  clear W. destruct s as [ps cs uc nc np lk]. simpl in *.
  unfold deleted, detached. simpl.
  destruct (Comment.parent_comment_id c) as [p|] eqn:Epar; simpl.
  - destruct (Hpar p eq_refl) as (pc & Hpc & Hinp). rewrite Hpc.
    rewrite bool_decide_eq_true_2 by done. simpl. rewrite Hids.
    rewrite bool_decide_eq_true_2 by done. simpl.
    split; [done|]. split; [done|]. split; [done|]. split; [|split; [|split]].
    + intros j. case_decide as Ej; subst; [apply lookup_delete_eq|].
      rewrite lookup_delete_ne by done.
      destruct (decide (j = p)) as [->|Ejp].
      * by rewrite lookup_insert_eq, Hpc.
      * rewrite lookup_insert_ne by done.
        destruct (cs !! j) as [cj|] eqn:Hcj; simpl; [|done].
        f_equal. symmetry. apply (Hother j); [done|congruence].
    + symmetry. apply remove_first_absent. by apply Hnot.
    + eauto.
    + intros u. destruct (decide (u = Comment.user c)) as [->|Hu].
      * by rewrite lookup_insert_eq, Hids.
      * rewrite lookup_insert_ne by done.
        destruct (uc !! u) as [l|] eqn:El; simpl; [|done].
        f_equal. symmetry. by apply (Huother u).
  - rewrite Hids. rewrite bool_decide_eq_true_2 by done. simpl.
    split; [done|]. split; [done|]. split; [done|]. split; [|split; [|split]].
    + intros j. case_decide as Ej; subst; [apply lookup_delete_eq|].
      rewrite lookup_delete_ne by done.
      destruct (cs !! j) as [cj|] eqn:Hcj; simpl; [|done].
      f_equal. symmetry. by apply (Hother j).
    + apply top_level_remove.
    + apply remove_from_posts_keys.
    + intros u. destruct (decide (u = Comment.user c)) as [->|Hu].
      * by rewrite lookup_insert_eq, Hids.
      * rewrite lookup_insert_ne by done.
        destruct (uc !! u) as [l|] eqn:El; simpl; [|done].
        f_equal. symmetry. by apply (Huother u).
Qed.

Lemma hops_sub (cs cs' : gmap Z Comment.t) i n :
  (∀ j c', cs' !! j = Some c' →
     ∃ c, cs !! j = Some c ∧
          Comment.parent_comment_id c = Comment.parent_comment_id c') →
  hops cs' i n → hops cs i n.
Proof.
  intros Hsub. induction 1 as [i c' Hc' Hp|i c' p n Hc' Hp H IH];
    destruct (Hsub i c' Hc') as (c & Hc & E).
  - eapply hops_root; [done|congruence].
  - eapply hops_reply; [done| |done]. congruence.
Qed.

Lemma wf_deleted s i c :
  wf s → comments s !! i = Some c → Comment.replies c = [] →
  wf (deleted i c s).
Proof.
  intros W Hc Hleaf.
  destruct (deleted_fields s i c W Hc) as (Hl & Hn & Hnp & L & Htop & Hkeys & Lu).
  set (s' := deleted i c s) in *.
  assert (∀ j c', comments s' !! j = Some c' →
            j ≠ i ∧ ∃ cj, comments s !! j = Some cj ∧
              Comment.id c' = Comment.id cj ∧ Comment.user c' = Comment.user cj ∧
              Comment.parent_comment_id c' = Comment.parent_comment_id cj ∧
              Comment.replies c' = remove_first i (Comment.replies cj)) as Hback.
  { intros j c'. rewrite L. case_decide; [done|].
    destruct (comments s !! j) as [cj|]; simpl; [|done].
    intros [= <-]. split; [done|]. by exists cj. }
  assert (∀ j cj, comments s !! j = Some cj → j ≠ i →
            ∃ c', comments s' !! j = Some c' ∧
              Comment.id c' = Comment.id cj ∧ Comment.user c' = Comment.user cj ∧
              Comment.parent_comment_id c' = Comment.parent_comment_id cj ∧
              Comment.replies c' = remove_first i (Comment.replies cj)) as Hfwd.
  { intros j cj Hcj Hj. rewrite L, decide_False by done. rewrite Hcj. simpl.
    by eexists. }
  constructor.
  - done.
  - rewrite Hn. apply W.
  - intros j c' Hc'. destruct (Hback j c' Hc') as (Hj & cj & Hcj & E1 & _).
    rewrite Hn, E1. by apply W.
  - intros j c' q Hc' Hq.
    destruct (Hback j c' Hc') as (Hj & cj & Hcj & _ & _ & E3 & _).
    rewrite E3 in Hq.
    destruct (wf_parent s W j cj q Hcj Hq) as [Hlt (qc & Hqc & Hin)].
    split; [done|].
    assert (q ≠ i) as Hqi.
    { intros ->. rewrite Hc in Hqc. simplify_eq. rewrite Hleaf in Hin.
      by apply elem_of_nil in Hin. }
    destruct (Hfwd q qc Hqc Hqi) as (qc' & Hqc' & _ & _ & _ & E4).
    exists qc'. split; [done|]. rewrite E4. by apply remove_first_elem_of_ne.
  - intros j c' r Hc' Hr.
    destruct (Hback j c' Hc') as (Hj & cj & Hcj & _ & _ & _ & E4).
    rewrite E4 in Hr.
    pose proof (remove_first_nodup i _ (wf_replies_nodup s W j cj Hcj)) as [_ Hni].
    assert (r ≠ i) as Hri by (by intros ->).
    apply remove_first_elem_of in Hr.
    destruct (wf_replies s W j cj r Hcj Hr) as (rc & Hrc & Hp).
    destruct (Hfwd r rc Hrc Hri) as (rc' & Hrc' & _ & _ & E3 & _).
    exists rc'. split; [done|]. congruence.
  - intros j c' Hc'.
    destruct (Hback j c' Hc') as (Hj & cj & Hcj & _ & _ & _ & E4).
    rewrite E4. by apply remove_first_nodup, (wf_replies_nodup s W j cj).
  - intros j c' Hc' Hp.
    destruct (Hback j c' Hc') as (Hj & cj & Hcj & _ & _ & E3 & _).
    rewrite Htop. apply remove_first_elem_of_ne; [done|].
    apply (wf_roots s W j cj); [done|congruence].
  - intros r. rewrite Htop. intros Hr.
    pose proof (remove_first_nodup i _ (wf_posts_nodup s W)) as [_ Hni].
    assert (r ≠ i) as Hri by (by intros ->).
    apply remove_first_elem_of in Hr.
    destruct (wf_posts s W r Hr) as (rc & Hrc & Hp).
    destruct (Hfwd r rc Hrc Hri) as (rc' & Hrc' & _ & _ & E3 & _).
    exists rc'. split; [done|]. congruence.
  - rewrite Htop. by apply remove_first_nodup, W.
  - intros k post Hin. destruct (Hkeys k post Hin) as [post' Hin'].
    rewrite Hnp. by apply (wf_post_ids s W k post').
  - intros u l'. rewrite Lu.
    destruct (user_comments s !! u) as [l|] eqn:El; simpl; [|done].
    intros [= <-]. destruct (wf_users s W u l El) as [Hsort Hmem].
    split; [by apply remove_first_sorted|]. intros j. split.
    + intros Hj.
      pose proof (remove_first_nodup i _ (sorted_lt_nodup _ Hsort)) as [_ Hni].
      assert (j ≠ i) as Hji by (by intros ->).
      apply remove_first_elem_of in Hj. apply Hmem in Hj as (cj & Hcj & Hu).
      destruct (Hfwd j cj Hcj Hji) as (c' & Hc' & _ & E2 & _).
      exists c'. split; [done|]. congruence.
    + intros (c' & Hc' & Hu).
      destruct (Hback j c' Hc') as (Hj & cj & Hcj & _ & E2 & _).
      apply remove_first_elem_of_ne; [done|]. apply Hmem.
      exists cj. split; [done|]. congruence.
  - intros j c' Hc'.
    destruct (Hback j c' Hc') as (Hj & cj & Hcj & _ & E2 & _).
    rewrite Lu, E2. destruct (wf_users_dom s W j cj Hcj) as [l ->]. by eexists.
  - intros j m Hm. apply (wf_depth s W j). eapply hops_sub; [|done].
    intros k c' Hc'. destruct (Hback k c' Hc') as (Hj & cj & Hcj & _ & _ & E3 & _).
    exists cj. by split.
Qed.

(** ** Reachable stores satisfy the invariant *)

Lemma wf_init : wf init.
Proof.
  constructor; simpl; try done.
  - intros r Hr. by apply elem_of_nil in Hr.
  - constructor.
  - intros k post Hin. by apply elem_of_nil in Hin.
  - intros i n Hn. by inversion Hn.
Qed.

Lemma wf_hops_of_depth s p pc fuel d :
  wf s → comments s !! p = Some pc →
  _get_comment_depth fuel (comments s) p = Some d → hops (comments s) p d.
Proof.
  intros W Hpc Hd. unfold _get_comment_depth in Hd.
  destruct (depth_loop_hops (comments s) p pc Hpc) with (fuel := fuel)
    (d := 0%nat) (r := d) as (n & Hn & ->); [|done|done].
  intros j cj q Hcj Hq. destruct (wf_parent s W j cj q Hcj Hq) as [_ (qc & ? & _)].
  eauto.
Qed.

Lemma wf_add_comment fuel s post_id user content parent now s' :
  wf s → completes (add_comment fuel post_id user content parent now s) s' →
  wf s'.
Proof.
  intros W Hs'.
  apply add_comment_completes in Hs'; [|apply W|by intros; eapply wf_fresh].
  destruct Hs' as [->|[(post & -> & Hpost & ->)
                      |(p & pc & d & -> & Hpc & Hd & Hd4 & Hs')]]; [done| |].
  - by apply wf_added_top.
  - pose proof (wf_hops_of_depth s p pc fuel d W Hpc Hd) as Hhops.
    destruct Hs' as [-> | ->]; [|apply wf_collapse]; by eapply wf_added_reply.
Qed.

Lemma view_completes fuel s post_id view_type s' :
  lock s = false →
  completes (get_comments_view fuel post_id view_type s) s' → s' = s.
Proof.
  intros Hl. unfold get_comments_view. rewrite with_lock_free by done. run.
  destruct (dict_get post_id (posts s)) as [post|]; run;
    [|intros ->; by apply set_lock_release].
  repeat case_bool_decide; run; try (intros ->; by apply set_lock_release).
  destruct (_flatten_comments _ _ _); [|done].
  intros ->; by apply set_lock_release.
Qed.

Lemma get_user_comments_completes s u s' :
  lock s = false → completes (get_user_comments u s) s' → s' = s.
Proof.
  intros Hl. unfold get_user_comments. rewrite with_lock_free by done. run.
  destruct (user_comments s !! u) as [ids|]; run;
    [|intros ->; by apply set_lock_release].
  destruct (lookup_all _ _); run; intros ->; by apply set_lock_release.
Qed.

Lemma toggle_present s i c :
  lock s = false → comments s !! i = Some c →
  toggle_collapse i s =
    Ret true (set_comments
      (<[i := Comment.set_collapsed (negb (Comment.collapsed c)) c]> (comments s)) s).
Proof.
  intros Hl Hc. unfold toggle_collapse. rewrite with_lock_free by done.
  run. rewrite bool_decide_eq_true_2 by eauto.
  run. rewrite update_comment_present with (c := c) by done.
  destruct s; simpl in *; by subst.
Qed.

Lemma toggle_absent s i :
  lock s = false → comments s !! i = None → toggle_collapse i s = Ret false s.
Proof.
  intros Hl Hc. unfold toggle_collapse. rewrite with_lock_free by done. run.
  rewrite bool_decide_eq_false_2 by (rewrite Hc; by intros [? ?]).
  by rewrite set_lock_release.
Qed.

Lemma wf_field_update s i s' :
  wf s →
  completes (upvote_comment i s) s' ∨ completes (downvote_comment i s) s' ∨
  completes (toggle_collapse i s) s' →
  wf s'.
Proof.
  intros W H. pose proof (wf_lock s W) as Hl.
  destruct (comments s !! i) as [c|] eqn:Hc.
  - rewrite (upvote_present s i c), (downvote_present s i c),
      (toggle_present s i c) in H by done. simpl in H.
    destruct H as [->|[->| ->]]; (apply wf_same_shape; [done|]);
      by apply (same_shape_insert _ _ c).
  - destruct (vote_absent s i Hl Hc) as [E1 E2].
    rewrite E1, E2, toggle_absent in H by done. simpl in H.
    by destruct H as [->|[->| ->]].
Qed.

Lemma wf_delete_comment fuel s i s' :
  wf s → completes (delete_comment fuel i s) s' → wf s'.
Proof.
  intros W [->|(c & Hc & Hleaf & ->)]%delete_comment_completes; [done| |done].
  by apply wf_deleted.
Qed.

Lemma completes_perform {A} (m : M A) s s' :
  completes ((m ;;; ret tt) s) s' ↔ completes (m s) s'.
Proof. unfold bind, ret. by destruct (m s). Qed.

Lemma history_wf s log : history s log → wf s.
Proof.
  induction 1 as [|s log o s' _ IH Hs']; [apply wf_init|].
  destruct o; cbn [perform] in Hs'; apply (proj1 (completes_perform _ _ _)) in Hs'.
  - destruct (wf_create_post s title IH) as [E W]. rewrite E in Hs'.
    simpl in Hs'. by subst.
  - by eapply wf_add_comment.
  - apply view_completes in Hs' as ->; [done|apply IH].
  - eapply wf_field_update; eauto.
  - eapply wf_field_update; eauto.
  - eapply wf_field_update; eauto.
  - apply get_user_comments_completes in Hs' as ->; [done|apply IH].
  - by eapply wf_delete_comment.
Qed.

Lemma reachable_wf s : reachable s → wf s.
Proof. intros [log H]. by eapply history_wf. Qed.

Lemma reachable_step s o s' :
  reachable s → completes (perform o s) s' → reachable s'.
Proof. intros [log H] Hs'. eexists. by eapply history_step. Qed.

(** ** The log of authored comments *)

Lemma sorted_filter (P : Z → Prop) `{∀ x, Decision (P x)} l :
  StronglySorted Z.lt l → StronglySorted Z.lt (filter P l).
Proof.
  induction l as [|x l IH]; [done|].
  intros [Hx Hl]%StronglySorted_cons. rewrite filter_cons.
  case_decide; [|by apply IH].
  apply StronglySorted_cons. split; [|by apply IH].
  apply Forall_forall. intros y [_ Hy]%list_elem_of_filter.
  by eapply Forall_forall in Hx.
Qed.

Lemma sorted_lt_unique l1 l2 :
  StronglySorted Z.lt l1 → StronglySorted Z.lt l2 →
  (∀ i, i ∈ l1 ↔ i ∈ l2) → l1 = l2.
Proof.
  intros H1 H2 Hmem. apply (StronglySorted_unique_strong Z.lt); [|done..|].
  - intros. lia.
  - apply NoDup_Permutation; auto using sorted_lt_nodup.
Qed.

(** What a completed call does to the counter and to the index. *)
Lemma step_effect s o s' :
  wf s → completes (perform o s) s' →
  (created o s = [] ∧ next_comment_id s' = next_comment_id s ∧
   ∀ i, is_Some (comments s' !! i) → is_Some (comments s !! i)) ∨
  (created o s = [next_comment_id s] ∧
   next_comment_id s' = next_comment_id s + 1 ∧
   ∀ i, is_Some (comments s' !! i) →
        is_Some (comments s !! i) ∨ i = next_comment_id s).
Proof.
  intros W Hs'. pose proof (wf_lock s W) as Hl.
  destruct o; cbn [perform] in Hs'; apply (proj1 (completes_perform _ _ _)) in Hs'; simpl.
  - left. destruct (wf_create_post s title W) as [E _]. rewrite E in Hs'.
    simpl in Hs'. by subst.
  - destruct (add_comment_outcome fuel s post_id user content parent_comment_id
                now Hl (λ i c, wf_fresh s i c W))
      as [E|[E|[(post & -> & Hp & E)
               |(p & pc & d & b & -> & Hpc & Hd & Hd4 & Hb & E)]]];
      rewrite E in *; simpl in Hs'; subst; [done|by left| |]; right.
    + split; [done|]. split; [done|]. intros i.
      rewrite added_top_lookup. case_decide; auto.
    + assert (p ≠ next_comment_id s) as Hne by (by eapply wf_fresh).
      split; [done|].
      assert (∀ i, is_Some (comments (added_reply s p pc user content now) !! i)
                → is_Some (comments s !! i) ∨ i = next_comment_id s) as Hdom.
      { intros i. rewrite added_reply_lookup by done.
        repeat case_decide; subst; eauto. }
      destruct b; [|by split]. split.
      * unfold collapse. by case_match.
      * intros i Hi. apply Hdom. unfold collapse in Hi.
        destruct (comments (added_reply s p pc user content now) !! p)
          as [c|] eqn:Ec; [|done]. simpl in Hi.
        destruct (decide (i = p)) as [->|]; [by rewrite Ec|].
        by rewrite lookup_insert_ne in Hi.
  - left. by apply view_completes in Hs' as ->.
  - left. destruct (comments s !! comment_id) as [c|] eqn:Hc.
    + rewrite (upvote_present s _ c) in Hs' by done. simpl in Hs'. subst.
      simpl. split; [done|]. split; [done|]. intros i.
      destruct (decide (i = comment_id)) as [->|]; [by rewrite Hc|].
      by rewrite lookup_insert_ne.
    + destruct (vote_absent s comment_id Hl Hc) as [E _]. rewrite E in Hs'.
      simpl in Hs'. by subst.
  - left. destruct (comments s !! comment_id) as [c|] eqn:Hc.
    + rewrite (downvote_present s _ c) in Hs' by done. simpl in Hs'. subst.
      simpl. split; [done|]. split; [done|]. intros i.
      destruct (decide (i = comment_id)) as [->|]; [by rewrite Hc|].
      by rewrite lookup_insert_ne.
    + destruct (vote_absent s comment_id Hl Hc) as [_ E]. rewrite E in Hs'.
      simpl in Hs'. by subst.
  - left. destruct (comments s !! comment_id) as [c|] eqn:Hc.
    + rewrite (toggle_present s _ c) in Hs' by done. simpl in Hs'. subst.
      simpl. split; [done|]. split; [done|]. intros i.
      destruct (decide (i = comment_id)) as [->|]; [by rewrite Hc|].
      by rewrite lookup_insert_ne.
    + rewrite toggle_absent in Hs' by done. simpl in Hs'. by subst.
  - left. by apply get_user_comments_completes in Hs' as ->.
  - left. apply delete_comment_completes in Hs' as [->|(c & Hc & Hleaf & ->)];
      [done| |done].
    destruct (deleted_fields s comment_id c W Hc) as (_ & Hn & _ & L & _).
    split; [done|]. split; [done|]. intros i. rewrite L.
    case_decide; [by intros [? ?]|]. by destruct (comments s !! i).
Qed.

Lemma history_log s log :
  history s log →
  StronglySorted Z.lt log ∧
  (∀ i, i ∈ log → i < next_comment_id s) ∧
  (∀ i, is_Some (comments s !! i) → i ∈ log).
Proof.
  induction 1 as [|s log o s' Hh (Hsort & Hlt & Hin) Hs'].
  { split; [constructor|]. split; [by intros ? ?%elem_of_nil|].
    intros i [c Hc]. simpl in Hc. by rewrite lookup_empty in Hc. }
  pose proof (history_wf s log Hh) as W.
  destruct (step_effect s o s' W Hs') as [(-> & Hn & Hdom)|(-> & Hn & Hdom)].
  - rewrite app_nil_r, Hn. auto.
  - split; [|split].
    + apply StronglySorted_app. split; [|split; [done|repeat constructor]].
      intros x y Hx ->%list_elem_of_singleton. by apply Hlt.
    + intros i [Hi| ->%list_elem_of_singleton]%elem_of_app; [|lia].
      specialize (Hlt i Hi). lia.
    + intros i Hi. apply elem_of_app.
      destruct (Hdom i Hi) as [?| ->]; [left; auto|right; by left].
Qed.

Lemma lookup_all_present cs ids :
  (∀ i, i ∈ ids → is_Some (cs !! i)) → lookup_all cs ids = Some ids.
Proof.
  induction ids as [|i ids IH]; simpl; [done|]. intros H.
  rewrite bool_decide_eq_true_2 by (apply H; by left).
  rewrite IH; [done|]. intros j Hj. apply H. by right.
Qed.

Lemma get_user_comments_run s u :
  wf s → get_user_comments u s = Ret (default [] (user_comments s !! u)) s.
Proof.
  intros W. unfold get_user_comments. rewrite with_lock_free by apply W. run.
  destruct (user_comments s !! u) as [ids|] eqn:Hids; run.
  - rewrite lookup_all_present.
    + run. by rewrite set_lock_release by apply W.
    + intros i Hi. destruct (wf_users s W u ids Hids) as [_ Hmem].
      apply Hmem in Hi as (c & Hc & _). eauto.
  - by rewrite set_lock_release by apply W.
Qed.

(** Between completed calls the per-user lists are right.  Let [log] list
    the comments authored by a sequence of completed calls, in the order of
    authoring, and [s] be the store they lead to.  Then for every user the
    per-user list is the log restricted to the comments of that user that
    are still in the index; the list is therefore in authoring order and
    has no other id.  [get_user_comments] returns that list and leaves the
    store as it is, and it returns the empty list for a user without an
    entry. *)
Theorem user_comments_in_authoring_order (s : CommentSystem) (log : list Z)
    (u : string) :
  history s log →
  default [] (user_comments s !! u)
    = filter (λ i, still_by s u i = true) log ∧
  (∀ i, i ∈ default [] (user_comments s !! u) ↔
        ∃ c, comments s !! i = Some c ∧ Comment.user c = u) ∧
  get_user_comments u s = Ret (filter (λ i, still_by s u i = true) log) s ∧
  (user_comments s !! u = None → get_user_comments u s = Ret [] s).
Proof.
  intros Hh. pose proof (history_wf s log Hh) as W.
  destruct (history_log s log Hh) as (Hsort & _ & Hin).
  assert (StronglySorted Z.lt (default [] (user_comments s !! u)) ∧
          ∀ i, i ∈ default [] (user_comments s !! u) ↔
               ∃ c, comments s !! i = Some c ∧ Comment.user c = u)
    as [Hs Hmem].
  { destruct (user_comments s !! u) as [l|] eqn:El; simpl; [by apply W|].
    split; [constructor|]. intros i. split; [by intros ?%elem_of_nil|].
    intros (c & Hc & Hu). destruct (wf_users_dom s W i c Hc) as [l Hl].
    congruence. }
  assert (default [] (user_comments s !! u)
          = filter (λ i, still_by s u i = true) log) as E.
  { apply sorted_lt_unique; [done|by apply sorted_filter|].
    intros i. rewrite Hmem, list_elem_of_filter. unfold still_by. split.
    - intros (c & Hc & Hu). rewrite Hc. split; [|by apply Hin].
      by apply bool_decide_eq_true_2.
    - intros [Hb _]. destruct (comments s !! i) as [c|]; [|done].
      apply bool_decide_eq_true_1 in Hb. by exists c. }
  split; [done|]. split; [done|]. rewrite <- E. split.
  - by apply get_user_comments_run.
  - intros Hnone. rewrite get_user_comments_run by done. by rewrite Hnone.
Qed.

(** ** Reply trees: counting and flattening *)

Lemma count_unfold fuel cs i :
  _count_total_replies (S fuel) cs i =
    c ← cs !! i;
    foldl (count_step fuel cs) (Some (length (Comment.replies c)))
          (Comment.replies c).
Proof. done. Qed.

Lemma flatten_unfold fuel cs l :
  _flatten_comments (S fuel) cs l = foldl (flatten_step fuel cs) (Some []) l.
Proof. done. Qed.

Lemma reify_forest_length cs l ts : reify_forest cs l ts → length l = length ts.
Proof. induction 1; simpl; auto. Qed.

Lemma descendants_node i c kids :
  descendants (Node i c kids)
    = (length kids + foldr (λ k n, descendants k + n) 0 kids)%nat.
Proof.
  simpl. induction kids as [|k kids IH]; simpl; [done|]. rewrite IH. lia.
Qed.

Lemma count_reify cs :
  (∀ i t, reify cs i t →
     ∀ fuel, (height t ≤ fuel)%nat →
       _count_total_replies fuel cs i = Some (descendants t)) ∧
  (∀ l ts, reify_forest cs l ts →
     ∀ fuel, (height_forest ts ≤ fuel)%nat → ∀ a,
       foldl (count_step fuel cs) (Some a) l
         = Some (a + foldr (λ k n, descendants k + n) 0 ts)%nat).
Proof.
  apply reify_mutind.
  - intros i c kids Hc Hkids IH fuel Hf.
    destruct fuel as [|fuel]; [simpl in Hf; lia|].
    rewrite count_unfold, Hc. simpl option_bind. cbn [mbind option_bind].
    rewrite IH by (simpl in Hf; unfold height_forest; lia).
    rewrite descendants_node. by rewrite (reify_forest_length _ _ _ Hkids).
  - intros fuel _ a. simpl. f_equal. lia.
  - intros i l t ts Ht IHt Hts IHts fuel Hf a. simpl in *.
    rewrite IHt by lia. simpl.
    rewrite IHts by lia. f_equal. lia.
Qed.

Lemma flatten_reify cs :
  (∀ i t, reify cs i t →
     ∀ fuel, (height t ≤ fuel)%nat → ∀ acc,
       flatten_step fuel cs (Some acc) i = Some (acc ++ preorder t)) ∧
  (∀ l ts, reify_forest cs l ts →
     ∀ fuel, (height_forest ts ≤ fuel)%nat → ∀ acc,
       foldl (flatten_step fuel cs) (Some acc) l
         = Some (acc ++ preorder_forest ts)).
Proof.
  apply reify_mutind.
  - intros i c kids Hc Hkids IH fuel Hf acc.
    unfold flatten_step. simpl. rewrite Hc. simpl.
    destruct (Comment.collapsed c); [done|].
    destruct fuel as [|fuel]; [simpl in Hf; lia|].
    rewrite flatten_unfold.
    rewrite IH by (simpl in Hf; unfold height_forest; lia). simpl.
    by rewrite <- app_assoc.
  - intros fuel _ acc. simpl. by rewrite app_nil_r.
  - intros i l t ts Ht IHt Hts IHts fuel Hf acc. simpl in *.
    rewrite IHt by lia. rewrite IHts by lia. by rewrite <- app_assoc.
Qed.

Lemma reify_functional cs :
  (∀ i t, reify cs i t → ∀ t', reify cs i t' → t = t') ∧
  (∀ l ts, reify_forest cs l ts → ∀ ts', reify_forest cs l ts' → ts = ts').
Proof.
  apply reify_mutind.
  - intros i c kids Hc _ IH t' Ht'. inversion Ht'; subst. simplify_eq.
    f_equal. by apply IH.
  - intros ts' H. by inversion H.
  - intros i l t ts _ IHt _ IHts ts' H. inversion H; subst.
    f_equal; auto.
Qed.

(** In a reachable store every reference unfolds to a finite tree, no
    taller than the depth limit leaves room for. *)
Lemma wf_reify_bounded s (k : nat) :
  wf s → ∀ i c d, comments s !! i = Some c → hops (comments s) i d →
  (5 ≤ d + k)%nat →
  ∃ t, reify (comments s) i t ∧ (height t + d ≤ 5)%nat.
Proof.
  intros W. induction k as [|k IH]; intros i c d Hc Hd Hk.
  { pose proof (wf_depth s W i d Hd). lia. }
  assert (∀ l, (∀ r, r ∈ l → r ∈ Comment.replies c) →
            ∃ ts, reify_forest (comments s) l ts ∧
                  (height_forest ts + S d ≤ 5)%nat) as Hforest.
  { induction l as [|r l IHl]; intros Hl.
    - exists []. split; [constructor|]. simpl.
      pose proof (wf_depth s W i d Hd). lia.
    - destruct IHl as (ts & Hts & Hh); [intros; apply Hl; by right|].
      destruct (wf_replies s W i c r Hc) as (rc & Hrc & Hp); [apply Hl; by left|].
      destruct (IH r rc (S d) Hrc) as (t & Ht & Hht);
        [by eapply hops_reply|lia|].
      exists (t :: ts). split; [by constructor|].
      unfold height_forest in *. simpl. lia. }
  destruct (Hforest (Comment.replies c)) as (ts & Hts & Hh); [done|].
  exists (Node i c ts). split; [by constructor|].
  unfold height_forest in *. simpl. lia.
Qed.

Lemma wf_hops s i c :
  wf s → comments s !! i = Some c → ∃ d, hops (comments s) i d ∧ (d ≤ 4)%nat.
Proof.
  intros W. assert (∀ k : nat, ∀ i c, comments s !! i = Some c →
    i ≤ Z.of_nat k → ∃ d, hops (comments s) i d) as Hex.
  { induction k as [|k IH]; intros j cj Hcj Hk.
    - destruct (wf_ids s W j cj Hcj). lia.
    - destruct (Comment.parent_comment_id cj) as [p|] eqn:Hp.
      + destruct (wf_parent s W j cj p Hcj Hp) as [Hlt (pc & Hpc & _)].
        destruct (IH p pc Hpc) as [d Hd]; [lia|].
        exists (S d). by eapply hops_reply.
      + exists 0%nat. by eapply hops_root. }
  intros Hc. destruct (Hex (Z.to_nat i) i c Hc) as [d Hd]; [lia|].
  exists d. split; [done|]. by apply (wf_depth s W i).
Qed.

Lemma wf_reify s i c :
  wf s → comments s !! i = Some c →
  ∃ t, reify (comments s) i t ∧ (height t ≤ 5)%nat.
Proof.
  intros W Hc. destruct (wf_hops s i c W Hc) as (d & Hd & _).
  destruct (wf_reify_bounded s 5 W i c d Hc Hd) as (t & Ht & Hh); [lia|].
  exists t. split; [done|lia].
Qed.

Lemma wf_reify_forest s l :
  wf s → (∀ r, r ∈ l → is_Some (comments s !! r)) →
  ∃ ts, reify_forest (comments s) l ts ∧ (height_forest ts ≤ 5)%nat.
Proof.
  intros W. induction l as [|r l IH]; intros Hl.
  - exists []. split; [constructor|]. simpl. lia.
  - destruct IH as (ts & Hts & Hh); [intros; apply Hl; by right|].
    destruct (Hl r) as [c Hc]; [by left|].
    destruct (wf_reify s r c W Hc) as (t & Ht & Hht).
    exists (t :: ts). split; [by constructor|].
    unfold height_forest in *. simpl. lia.
Qed.

Lemma count_same_shape cs cs' fuel i :
  same_shape cs cs' →
  _count_total_replies fuel cs i = _count_total_replies fuel cs' i.
Proof.
  intros Hs. revert i. induction fuel as [|fuel IH]; intros i; [done|].
  rewrite !count_unfold. pose proof (Hs i) as Hi.
  destruct (cs !! i) as [c|], (cs' !! i) as [c'|]; simpl in *; try done.
  assert (Comment.replies c = Comment.replies c') as ->
    by (unfold shape in Hi; by simplify_eq).
  generalize (Some (length (Comment.replies c'))).
  induction (Comment.replies c') as [|r l IHl]; intros a; simpl; [done|].
  rewrite IHl. f_equal. unfold count_step. by rewrite IH.
Qed.

(** ** Flat view *)

Local Arguments _flatten_comments : simpl never.
Local Arguments _count_total_replies : simpl never.

Lemma dict_get_top_level post_id post ps r :
  dict_get post_id ps = Some post → r ∈ Post.comments post → r ∈ top_level ps.
Proof.
  intros Hg%dict_get_elem_of Hr. unfold top_level.
  apply list_elem_of_In, in_concat. exists (Post.comments post).
  split; [|by apply list_elem_of_In].
  apply in_map_iff. exists (post_id, post). split; [done|].
  by apply list_elem_of_In.
Qed.

(** C4.  For a post of a reachable store, the references under the post
    unfold to a forest, and [get_comments_view] with "flat" returns, with
    fuel 6 or more, the pre-order listing of that forest in which a
    collapsed comment is listed and its replies are left out.  The call
    leaves the store as it was, so the replies left out are still in the
    tree and in the index. *)
Theorem flat_view_is_preorder (s : CommentSystem) (post_id : Z) (post : Post.t) :
  reachable s → dict_get post_id (posts s) = Some post →
  ∃ forest,
    reify_forest (comments s) (Post.comments post) forest ∧
    ∀ fuel, (6 ≤ fuel)%nat →
      get_comments_view fuel post_id "flat" s = Ret (preorder_forest forest) s.
Proof.
  intros W%reachable_wf Hp.
  destruct (wf_reify_forest s (Post.comments post) W) as (ts & Hts & Hh).
  { intros r Hr. destruct (wf_posts s W r) as (rc & Hrc & _); [|eauto].
    by eapply dict_get_top_level. }
  exists ts. split; [done|]. intros fuel Hf.
  destruct fuel as [|fuel]; [lia|].
  unfold get_comments_view. rewrite with_lock_free by apply W. run.
  rewrite Hp. simpl. rewrite flatten_unfold.
  rewrite (proj2 (flatten_reify (comments s)) _ ts) by (done || lia).
  simpl. by rewrite set_lock_release by apply W.
Qed.

(** ** Additions on reachable stores *)

Lemma truthy_true s : truthy s = true ↔ s ≠ EmptyString.
Proof. by destruct s. Qed.

Lemma truthy_strip s : truthy (strip s) = true ↔ all_space s = false.
Proof.
  rewrite truthy_true. rewrite strip_empty. by destruct (all_space s).
Qed.

(** A reply to a comment less than four hops deep is added. *)
Lemma add_comment_reply_run fuel s post_id post user content p pc d now :
  wf s → (6 ≤ fuel)%nat →
  user ≠ EmptyString → all_space content = false →
  dict_get post_id (posts s) = Some post → comments s !! p = Some pc →
  hops (comments s) p d → (d < 4)%nat →
  ∃ t, reify (comments (added_reply s p pc user content now)) p t ∧
    add_comment fuel post_id user content (Some p) now s
      = Ret (Some (next_comment_id s))
            (if (10 <? descendants t)%nat
             then collapse p (added_reply s p pc user content now)
             else added_reply s p pc user content now).
Proof.
  intros W Hf Hu Hc Hp Hpc Hd Hd4.
  pose proof (wf_added_reply s p pc d user content now W Hpc Hd Hd4) as W'.
  pose proof (wf_fresh s p pc W Hpc) as Hne.
  assert (∃ pc', comments (added_reply s p pc user content now) !! p = Some pc')
    as [pc' Hpc'].
  { rewrite added_reply_lookup by done. rewrite decide_True by done. eauto. }
  destruct (wf_reify _ p pc' W' Hpc') as (t & Ht & Hh).
  exists t. split; [done|].
  apply (add_comment_reply fuel s post_id post user content p pc now d);
    try done.
  - apply W.
  - by apply truthy_true.
  - by apply truthy_strip.
  - apply hops_get_comment_depth; [done|lia].
  - unfold should_collapse_thread.
    by rewrite (proj1 (count_reify _) p t Ht) by lia.
Qed.

(** Every outcome of [add_comment] on a reachable store, with enough fuel. *)
Lemma add_comment_run fuel s post_id user content parent now :
  wf s → (6 ≤ fuel)%nat →
  let o := add_comment fuel post_id user content parent now s in
  o = Ret None s ∨
  (∃ post, parent = None ∧ dict_get post_id (posts s) = Some post ∧
     o = Ret (Some (next_comment_id s))
             (added_top s post_id post user content now)) ∨
  (∃ p pc d t, parent = Some p ∧ comments s !! p = Some pc ∧
     hops (comments s) p d ∧ (d < 4)%nat ∧
     reify (comments (added_reply s p pc user content now)) p t ∧
     o = Ret (Some (next_comment_id s))
             (if (10 <? descendants t)%nat
              then collapse p (added_reply s p pc user content now)
              else added_reply s p pc user content now)).
Proof.
  intros W Hf. simpl. pose proof (wf_lock s W) as Hl.
  destruct (decide (user = EmptyString)) as [Hu|Hu];
    [rewrite add_comment_none by auto; auto|].
  destruct (all_space content) eqn:Hc;
    [rewrite add_comment_none by auto; auto|].
  destruct (dict_get post_id (posts s)) as [post|] eqn:Hp;
    [|rewrite add_comment_none by auto; auto].
  destruct parent as [p|]; cycle 1.
  { rewrite (add_comment_top fuel s post_id post);
      [|done|by apply truthy_true|by apply truthy_strip|done].
    right; left. by exists post. }
  destruct (comments s !! p) as [pc|] eqn:Hpc;
    [|rewrite add_comment_none by (right; right; eauto); auto].
  destruct (wf_hops s p pc W Hpc) as (d & Hd & Hd4).
  destruct (decide (d < 4)%nat) as [Hlt|Hge].
  - destruct (add_comment_reply_run fuel s post_id post user content p pc d now)
      as (t & Ht & E); try done.
    right; right. by exists p, pc, d, t.
  - left. apply (add_comment_too_deep fuel s post_id post user content p pc now d);
      try done; [by apply truthy_true|by apply truthy_strip| |lia].
    apply hops_get_comment_depth; [done|lia].
Qed.

Lemma hops_super (cs cs' : gmap Z Comment.t) i n :
  (∀ j c, cs !! j = Some c →
     ∃ c', cs' !! j = Some c' ∧
           Comment.parent_comment_id c' = Comment.parent_comment_id c) →
  hops cs i n → hops cs' i n.
Proof.
  intros Hsup. induction 1 as [i c Hc Hp|i c p n Hc Hp H IH];
    destruct (Hsup i c Hc) as (c' & Hc' & E).
  - eapply hops_root; [done|congruence].
  - eapply hops_reply; [done| |done]. congruence.
Qed.

Lemma collapse_lookup p s j :
  comments (collapse p s) !! j =
    if decide (j = p) then Comment.set_collapsed true <$> comments s !! p
    else comments s !! j.
Proof.
  unfold collapse. destruct (comments s !! p) as [c|] eqn:Hc; simpl.
  - case_decide; subst; [by rewrite lookup_insert_eq|by rewrite lookup_insert_ne].
  - case_decide; subst; [by rewrite Hc|done].
Qed.

(** C2.  On a reachable store, for a post and a parent comment that exist
    and a user and a content that are not blank: the parent has a depth
    [d], the number of parent hops up to a root, and [d] is at most 4; with
    fuel 6 or more, [add_comment] returns a new comment when [d] is at most
    3, and that comment has depth [d + 1], which is at most 4; when [d] is 4
    or more it returns [None] and leaves the store as it was.  A top-level
    comment is added at depth 0. *)
Theorem add_comment_depth_limit (s : CommentSystem) (fuel : nat)
    (post_id : Z) (post : Post.t) (user content : string)
    (p : Z) (pc : Comment.t) (now : Z) :
  reachable s → (6 ≤ fuel)%nat →
  user ≠ EmptyString → all_space content = false →
  dict_get post_id (posts s) = Some post → comments s !! p = Some pc →
  ∃ d, hops (comments s) p d ∧ (d ≤ 4)%nat ∧
    ((d ≤ 3)%nat →
       ∃ s', add_comment fuel post_id user content (Some p) now s
               = Ret (Some (next_comment_id s)) s' ∧
             hops (comments s') (next_comment_id s) (S d) ∧ (S d ≤ 4)%nat) ∧
    ((4 ≤ d)%nat →
       add_comment fuel post_id user content (Some p) now s = Ret None s) ∧
    (∃ s', add_comment fuel post_id user content None now s
             = Ret (Some (next_comment_id s)) s' ∧
           hops (comments s') (next_comment_id s) 0).
Proof.
  intros W%reachable_wf Hf Hu Hc Hp Hpc.
  destruct (wf_hops s p pc W Hpc) as (d & Hd & Hd4).
  pose proof (wf_fresh s p pc W Hpc) as Hne.
  exists d. split; [done|]. split; [done|]. split; [|split].
  - intros Hd3.
    destruct (add_comment_reply_run fuel s post_id post user content p pc d now)
      as (t & Ht & E); try done; [lia|].
    eexists. split; [exact E|]. split; [|lia].
    set (s1 := added_reply s p pc user content now) in *.
    assert (hops (comments s1) (next_comment_id s) (S d)) as Hnew.
    { eapply hops_reply.
      - unfold s1. rewrite added_reply_lookup by done.
        rewrite decide_False by done. by rewrite decide_True.
      - done.
      - eapply hops_super; [|done]. intros j c Hj. unfold s1.
        rewrite added_reply_lookup by done.
        repeat case_decide; subst; simplify_eq; eauto.
        by destruct (wf_fresh s _ c W Hj). }
    destruct (10 <? descendants t)%nat; [|done].
    eapply hops_super; [|done]. intros j c Hj. rewrite collapse_lookup.
    case_decide; subst; [rewrite Hj; simpl|]; eauto.
  - intros Hd4'.
    apply (add_comment_too_deep fuel s post_id post user content p pc now d);
      try done; [apply W|by apply truthy_true|by apply truthy_strip|].
    apply hops_get_comment_depth; [done|lia].
  - eexists. split.
    + apply (add_comment_top fuel s post_id post);
        [apply W|by apply truthy_true|by apply truthy_strip|done].
    + eapply hops_root;
        [rewrite added_top_lookup; by rewrite decide_True|done].
Qed.

(** ** Auto-collapse *)

Lemma collapsed_after_add fuel s post_id user content parent now :
  wf s → (6 ≤ fuel)%nat →
  ∃ v s', add_comment fuel post_id user content parent now s = Ret v s' ∧
    wf s' ∧
    ∀ i c, comments s !! i = Some c →
      ∃ c', comments s' !! i = Some c' ∧
        if decide (parent = Some i ∧ v ≠ None)
        then ∃ t, reify (comments s') i t ∧
               Comment.collapsed c'
                 = Comment.collapsed c || (10 <? descendants t)%nat
        else Comment.collapsed c' = Comment.collapsed c.
Proof.
  intros W Hf.
  destruct (add_comment_run fuel s post_id user content parent now W Hf)
    as [E|[(post & -> & Hp & E)|(p & pc & d & t & -> & Hpc & Hd & Hd4 & Ht & E)]];
    rewrite E; clear E.
  - exists None, s. split; [done|]. split; [done|]. intros i c Hc. exists c.
    split; [done|]. rewrite decide_False; [done|]. by intros [_ ?].
  - eexists _, _. split; [done|]. split; [by apply wf_added_top|].
    intros i c Hc. exists c. split.
    + rewrite added_top_lookup. rewrite decide_False; [done|].
      by eapply wf_fresh.
    + rewrite decide_False; [done|]. by intros [? _].
  - pose proof (wf_fresh s p pc W Hpc) as Hne.
    pose proof (wf_added_reply s p pc d user content now W Hpc Hd Hd4) as W1.
    set (s1 := added_reply s p pc user content now) in *.
    assert (∀ i c, comments s !! i = Some c →
              ∃ c1, comments s1 !! i = Some c1 ∧
                    Comment.collapsed c1 = Comment.collapsed c) as Hfwd.
    { intros i c Hc. unfold s1. rewrite added_reply_lookup by done.
      repeat case_decide; subst; simplify_eq; eauto.
      by destruct (wf_fresh s _ c W Hc). }
    destruct (10 <? descendants t)%nat eqn:Hb.
    + eexists _, _. split; [done|]. split; [by apply wf_collapse|].
      intros i c Hc. destruct (Hfwd i c Hc) as (c1 & Hc1 & Ec).
      rewrite collapse_lookup. case_decide as Ei; subst.
      * rewrite Hc1. simpl. eexists. split; [done|].
        rewrite decide_True by done.
        assert (same_shape (comments s1) (comments (collapse p s1))) as Hsh.
        { unfold collapse. rewrite Hc1. simpl.
          by apply (same_shape_insert _ _ c1). }
        destruct (wf_reify (collapse p s1) p (Comment.set_collapsed true c1))
          as (t' & Ht' & Hh'); [by apply wf_collapse| |].
        { rewrite collapse_lookup, decide_True by done. by rewrite Hc1. }
        exists t'. split; [done|]. simpl.
        assert (descendants t' = descendants t) as ->; [|by rewrite Hb, orb_true_r].
        destruct (wf_reify s1 p c1 W1 Hc1) as (t1 & Ht1 & Hh1).
        pose proof (proj1 (reify_functional _) _ _ Ht _ Ht1). subst t1.
        pose proof (proj1 (count_reify _) p t Ht 5%nat Hh1) as E1.
        pose proof (proj1 (count_reify _) p t' Ht' 5%nat Hh') as E2.
        rewrite (count_same_shape _ _ _ _ Hsh) in E1. congruence.
      * exists c1. split; [done|]. rewrite decide_False; [done|].
        intros [[= ->] _]. done.
    + eexists _, _. split; [done|]. split; [done|].
      intros i c Hc. destruct (Hfwd i c Hc) as (c1 & Hc1 & Ec).
      exists c1. split; [done|]. case_decide as Ei; [|done].
      destruct Ei as [[= <-] _]. exists t. split; [done|].
      by rewrite Hb, orb_false_r.
Qed.

Lemma count_leaves cs p c fuel :
  cs !! p = Some c →
  (∀ r, r ∈ Comment.replies c →
        ∃ rc, cs !! r = Some rc ∧ Comment.replies rc = []) →
  (2 ≤ fuel)%nat →
  _count_total_replies fuel cs p = Some (length (Comment.replies c)).
Proof.
  intros Hc Hleaves Hf. destruct fuel as [|[|fuel]]; [lia..|].
  rewrite count_unfold, Hc. simpl.
  generalize (length (Comment.replies c)).
  induction (Comment.replies c) as [|r l IH]; intros a; simpl; [done|].
  destruct (Hleaves r) as (rc & Hrc & Hr); [by left|].
  rewrite count_unfold, Hrc. simpl.
  rewrite Hr. simpl. rewrite Nat.add_0_r.
  apply IH. intros r' Hr'. apply Hleaves. by right.
Qed.


Lemma row_after_reply fuel s post_id post user content p d now k :
  wf s → (6 ≤ fuel)%nat → user ≠ EmptyString → all_space content = false →
  dict_get post_id (posts s) = Some post →
  hops (comments s) p d → (d < 4)%nat → row_parent s p k →
  ∃ s', add_comment fuel post_id user content (Some p) now s
          = Ret (Some (next_comment_id s)) s' ∧
        wf s' ∧ posts s' = posts s ∧ hops (comments s') p d ∧
        row_parent s' p (S k).
Proof.
  intros W Hf Hu Hc Hp Hd Hd4 (pc & Hpc & Hlen & Hleaves & Hflag).
  pose proof (wf_fresh s p pc W Hpc) as Hne.
  pose proof (wf_added_reply s p pc d user content now W Hpc Hd Hd4) as W1.
  destruct (add_comment_reply_run fuel s post_id post user content p pc d now)
    as (t & Ht & E); try done.
  set (s1 := added_reply s p pc user content now) in *.
  set (n := next_comment_id s) in *.
  pose proof (added_reply_lookup s p pc user content now) as L. fold s1 n in L.
  set (pc1 := Comment.set_replies (Comment.replies pc ++ [n]) pc).
  assert (comments s1 !! p = Some pc1) as Hpc1.
  { rewrite L by done. by rewrite decide_True. }
  assert (∀ r, r ∈ Comment.replies pc1 →
            r ≠ p ∧ ∃ rc, comments s1 !! r = Some rc ∧ Comment.replies rc = [])
    as Hleaves1.
  { intros r. simpl. intros [Hr| ->%list_elem_of_singleton]%elem_of_app.
    - destruct (Hleaves r Hr) as (rc & Hrc & Hnil).
      destruct (wf_replies s W p pc r Hpc Hr) as (rc' & Hrc' & Hpar).
      destruct (wf_parent s W r rc' p Hrc' Hpar) as [Hlt _].
      split; [lia|]. exists rc. split; [|done]. rewrite L by done.
      rewrite decide_False by lia.
      rewrite decide_False by (by eapply wf_fresh). done.
    - split; [done|]. eexists. split.
      + rewrite L by done. rewrite decide_False by done. by rewrite decide_True.
      + done. }
  assert (descendants t = S k) as Ht_size.
  { pose proof (count_leaves (comments s1) p pc1 fuel Hpc1) as E1.
    destruct (wf_reify s1 p pc1 W1 Hpc1) as (t1 & Ht1 & Hh1).
    pose proof (proj1 (reify_functional _) _ _ Ht _ Ht1). subst t1.
    rewrite (proj1 (count_reify _) p t Ht) in E1 by lia.
    assert (Some (descendants t) = Some (length (Comment.replies pc1))) as [= ->].
    { apply E1; [|lia]. intros r Hr. by destruct (Hleaves1 r Hr). }
    simpl. rewrite length_app. simpl. lia. }
  rewrite Ht_size in E.
  assert (hops (comments s1) p d) as Hd1.
  { eapply hops_super; [|done]. intros j c Hj. rewrite L by done.
    repeat case_decide; subst; simplify_eq; eauto.
    by destruct (wf_fresh s _ c W Hj). }
  destruct (10 <? S k)%nat eqn:Hb.
  - eexists. split; [exact E|]. split; [by apply wf_collapse|].
    split; [unfold collapse; by case_match|]. split.
    + eapply hops_super; [|done]. intros j c Hj. rewrite collapse_lookup.
      case_decide; subst; [rewrite Hj; simpl|]; eauto.
    + exists (Comment.set_collapsed true pc1). split; [|split; [|split]].
      * rewrite collapse_lookup, decide_True by done. by rewrite Hpc1.
      * simpl. rewrite length_app. simpl. lia.
      * intros r Hr. destruct (Hleaves1 r Hr) as (Hrp & rc & Hrc & Hnil).
        exists rc. split; [|done]. rewrite collapse_lookup.
        by rewrite decide_False.
      * done.
  - eexists. split; [exact E|]. split; [done|]. split; [done|].
    split; [done|].
    exists pc1. split; [done|]. split; [|split].
    + simpl. rewrite length_app. simpl. lia.
    + intros r Hr. destruct (Hleaves1 r Hr) as (Hrp & rc & Hrc & Hnil). eauto.
    + simpl. rewrite Hflag. apply Nat.ltb_ge in Hb.
      rewrite (proj2 (Nat.ltb_ge 10 k)) by lia.
      symmetry. apply Nat.ltb_ge. lia.
Qed.

Lemma add_replies_row fuel post_id post p d rs :
  (6 ≤ fuel)%nat → Forall presentable rs → (d < 4)%nat →
  ∀ s k, wf s → dict_get post_id (posts s) = Some post →
    hops (comments s) p d → row_parent s p k →
    ∃ s', add_replies fuel post_id p rs s = Ret tt s' ∧
          row_parent s' p (k + length rs).
Proof.
  intros Hf Hrs Hd4. induction Hrs as [|[[user content] now] rs [Hu Hc] _ IH];
    intros s k W Hp Hd Hrow.
  - exists s. split; [done|]. simpl. by rewrite Nat.add_0_r.
  - simpl in Hu, Hc.
    destruct (row_after_reply fuel s post_id post user content p d now k)
      as (s1 & E & W1 & Hposts & Hd1 & Hrow1); try done.
    destruct (IH s1 (S k)) as (s' & E' & Hrow'); try done.
    { by rewrite Hposts. }
    exists s'. split.
    + simpl. unfold bind. by rewrite E.
    + simpl. by rewrite Nat.add_succ_r.
Qed.

(** C3.  On a reachable store, with fuel 6 or more, [add_comment] returns,
    and for every comment [i] that was in the index: if [i] is the parent
    given and a reply was added, the flag of [i] afterwards is its flag
    before or-ed with "the reply tree under [i] in the new store has more
    than 10 descendants"; otherwise the flag of [i] is what it was.  So a
    flag is only ever raised, only the direct parent's, and only when its
    subtree has grown beyond 10.  In particular, when replies are added in
    a row to a comment that had none and was not collapsed (and that is
    less than four hops deep, so that they are accepted), its flag
    afterwards is true exactly when more than 10 were added: true after 11,
    false after 10 or fewer. *)
Theorem auto_collapse (s : CommentSystem) (fuel : nat) :
  reachable s → (6 ≤ fuel)%nat →
  (∀ post_id user content parent now,
     ∃ v s', add_comment fuel post_id user content parent now s = Ret v s' ∧
       ∀ i c, comments s !! i = Some c →
         ∃ c', comments s' !! i = Some c' ∧
           if decide (parent = Some i ∧ v ≠ None)
           then ∃ t, reify (comments s') i t ∧
                  Comment.collapsed c'
                    = Comment.collapsed c || (10 <? descendants t)%nat
           else Comment.collapsed c' = Comment.collapsed c) ∧
  (∀ post_id post p c d rs,
     dict_get post_id (posts s) = Some post → comments s !! p = Some c →
     Comment.replies c = [] → Comment.collapsed c = false →
     hops (comments s) p d → (d < 4)%nat → Forall presentable rs →
     ∃ s' c', add_replies fuel post_id p rs s = Ret tt s' ∧
       comments s' !! p = Some c' ∧
       length (Comment.replies c') = length rs ∧
       Comment.collapsed c' = (10 <? length rs)%nat).
Proof.
  intros W%reachable_wf Hf. split.
  - intros post_id user content parent now.
    destruct (collapsed_after_add fuel s post_id user content parent now W Hf)
      as (v & s' & E & _ & H).
    by exists v, s'.
  - intros post_id post p c d rs Hp Hc Hnil Hflag Hd Hd4 Hrs.
    destruct (add_replies_row fuel post_id post p d rs Hf Hrs Hd4 s 0%nat)
      as (s' & E & c' & Hc' & Hlen & _ & Hflag'); try done.
    { exists c. rewrite Hnil. split; [done|]. split; [done|].
      split; [by intros r ?%elem_of_nil|done]. }
    by exists s', c'.
Qed.

(** ** The example stores are reachable *)

Lemma history_step_eq s log o s' log' :
  history s log → completes (perform o s) s' → log' = log ++ created o s →
  history s' log'.
Proof. intros H Hs' ->. by eapply history_step. Qed.

Ltac by_running := vm_compute; reflexivity.

Lemma history_empty_post : history store_empty_post [].
Proof.
  apply (history_step_eq init [] (CreatePost "Post Title"));
    [constructor|by_running..].
Qed.

Lemma history_one_comment : history store_one_comment [1].
Proof.
  apply (history_step_eq store_empty_post []
           (AddComment 8 1 "User1" "First comment." None 100));
    [apply history_empty_post|by_running..].
Qed.

Lemma history_two_comments : history store_two_comments [1; 2].
Proof.
  apply (history_step_eq store_one_comment [1]
           (AddComment 8 1 "User2" "Second comment." None 101));
    [apply history_one_comment|by_running..].
Qed.

Lemma history_test_delete : history store_test_delete [1; 2; 3].
Proof.
  apply (history_step_eq store_two_comments [1; 2]
           (AddComment 8 1 "User3" "Reply to first comment." (Some 1) 102));
    [apply history_two_comments|by_running..].
Qed.

Lemma history_collapsed : history store_collapsed [1; 2; 3].
Proof.
  apply (history_step_eq store_test_delete [1; 2; 3] (ToggleCollapse 1));
    [apply history_test_delete|by_running..].
Qed.

Lemma history_user_index : history store_user_index [1; 2; 3].
Proof.
  apply (history_step_eq store_two_comments [1; 2]
           (AddComment 8 1 "User1" "Another comment from User1." None 102));
    [apply history_two_comments|by_running..].
Qed.

Lemma history_user_index_deleted : history store_user_index_deleted [1; 2; 3].
Proof.
  apply (history_step_eq store_user_index [1; 2; 3] (DeleteComment 8 1));
    [apply history_user_index|by_running..].
Qed.

Lemma reachable_chain_step n :
  reachable (chain n) →
  completes (perform (AddComment 8 1 "User" "Reply" (Some (Z.of_nat (S n))) 104)
               (chain n)) (chain (S n)) →
  reachable (chain (S n)).
Proof. intros H Hs'. by eapply reachable_step. Qed.

Lemma reachable_chain_4 : reachable (chain 4).
Proof.
  do 4 (apply reachable_chain_step; [|by_running]).
  eexists. apply history_one_comment.
Qed.

Lemma reachable_chain_3 : reachable (chain 3).
Proof.
  do 3 (apply reachable_chain_step; [|by_running]).
  eexists. apply history_one_comment.
Qed.

(** ** Witnesses on the example stores *)

Lemma add_comment_depth_limit_witness :
  (∃ d, hops (comments (chain 3)) 4 d ∧ (d ≤ 3)%nat ∧
        ∃ s', add_comment 8 1 "User6" "Reply 4" (Some 4) 105 (chain 3)
                = Ret (Some 5) s') ∧
  (∃ d, hops (comments (chain 4)) 5 d ∧ (4 ≤ d)%nat ∧
        add_comment 8 1 "User6" "This is a 5th-level reply." (Some 5) 105
          (chain 4) = Ret None (chain 4)).
Proof.
  split.
  - destruct (add_comment_depth_limit (chain 3) 8 1 (Post.mk 1 "Post Title" [1])
                "User6" "Reply 4" 4
                (Comment.mk 4 "User" "Reply" 104 (Some 3) [] 0 false) 105)
      as (d & Hd & _ & Hok & _ & _);
      [apply reachable_chain_3|lia|done|reflexivity|reflexivity|reflexivity|].
    assert (hops (comments (chain 3)) 4 3) as H3.
    { apply (wf_hops_of_depth (chain 3) 4
               (Comment.mk 4 "User" "Reply" 104 (Some 3) [] 0 false) 8 3
               (reachable_wf _ reachable_chain_3)); vm_compute; reflexivity. }
    pose proof (hops_functional _ _ _ _ Hd H3). subst d.
    exists 3%nat. split; [done|]. split; [lia|].
    destruct (Hok (le_n 3)) as (s' & E & _). by exists s'.
  - destruct (add_comment_depth_limit (chain 4) 8 1 (Post.mk 1 "Post Title" [1])
                "User6" "This is a 5th-level reply." 5
                (Comment.mk 5 "User" "Reply" 104 (Some 4) [] 0 false) 105)
      as (d & Hd & _ & _ & Hno & _);
      [apply reachable_chain_4|lia|done|reflexivity|reflexivity|reflexivity|].
    assert (hops (comments (chain 4)) 5 4) as H4.
    { apply (wf_hops_of_depth (chain 4) 5
               (Comment.mk 5 "User" "Reply" 104 (Some 4) [] 0 false) 8 4
               (reachable_wf _ reachable_chain_4)); vm_compute; reflexivity. }
    pose proof (hops_functional _ _ _ _ Hd H4). subst d.
    exists 4%nat. split; [done|]. split; [lia|]. apply Hno. lia.
Defined.

Lemma auto_collapse_witness :
  (∃ s' c', add_replies 8 1 1 (replicate 11 ("User", "Reply", 103))
              store_one_comment = Ret tt s' ∧
            comments s' !! 1 = Some c' ∧ Comment.collapsed c' = true) ∧
  (∃ s' c', add_replies 8 1 1 (replicate 10 ("User", "Reply", 103))
              store_one_comment = Ret tt s' ∧
            comments s' !! 1 = Some c' ∧ Comment.collapsed c' = false).
Proof.
  assert (reachable store_one_comment) as Hr
    by (eexists; apply history_one_comment).
  destruct (auto_collapse store_one_comment 8 Hr) as [_ H]; [lia|].
  assert (∀ n, ∃ s' c',
            add_replies 8 1 1 (replicate n ("User", "Reply", 103))
              store_one_comment = Ret tt s' ∧
            comments s' !! 1 = Some c' ∧
            Comment.collapsed c' = (10 <? n)%nat) as Hn.
  { intros n.
    destruct (H 1 (Post.mk 1 "Post Title" [1]) 1
                (Comment.mk 1 "User1" "First comment." 100 None [] 0 false)
                0%nat (replicate n ("User", "Reply", 103)))
      as (s' & c' & E & Hc' & _ & Hflag);
      [reflexivity|reflexivity|reflexivity|reflexivity
      |eapply hops_root; reflexivity|lia| |].
    - apply Forall_replicate. by split.
    - exists s', c'. rewrite length_replicate in Hflag. done. }
  split; [apply (Hn 11%nat)|apply (Hn 10%nat)].
Defined.

Lemma flat_view_is_preorder_witness :
  (∃ forest, reify_forest (comments store_test_delete) [1; 2] forest ∧
             preorder_forest forest = [1; 3; 2]) ∧
  (∃ forest, reify_forest (comments store_collapsed) [1; 2] forest ∧
             preorder_forest forest = [1; 2] ∧
             get_comments_view 8 1 "flat" store_collapsed
               = Ret [1; 2] store_collapsed ∧
             is_Some (comments store_collapsed !! 3)).
Proof.
  split.
  - destruct (flat_view_is_preorder store_test_delete 1
                (Post.mk 1 "Post Title" [1; 2]))
      as (forest & Hf & H);
      [eexists; apply history_test_delete|reflexivity|].
    exists forest. split; [exact Hf|].
    specialize (H 8%nat). 
    assert (get_comments_view 8 1 "flat" store_test_delete
            = Ret [1; 3; 2] store_test_delete) as E by reflexivity.
    rewrite E in H. injection H; [|lia]. auto.
  - destruct (flat_view_is_preorder store_collapsed 1
                (Post.mk 1 "Post Title" [1; 2]))
      as (forest & Hf & H);
      [eexists; apply history_collapsed|reflexivity|].
    exists forest. split; [exact Hf|].
    specialize (H 8%nat).
    assert (get_comments_view 8 1 "flat" store_collapsed
            = Ret [1; 2] store_collapsed) as E by reflexivity.
    rewrite E in H. injection H; [|lia]. intros <-.
    split; [done|]. split; [done|]. by eexists.
Defined.

Lemma user_comments_in_authoring_order_witness :
  get_user_comments "User1" store_user_index = Ret [1; 3] store_user_index ∧
  get_user_comments "User2" store_user_index = Ret [2] store_user_index ∧
  get_user_comments "User1" store_user_index_deleted
    = Ret [3] store_user_index_deleted ∧
  get_user_comments "Nobody" store_user_index = Ret [] store_user_index.
Proof.
  split; [|split; [|split]].
  - apply (user_comments_in_authoring_order store_user_index [1; 2; 3] "User1").
    apply history_user_index.
  - apply (user_comments_in_authoring_order store_user_index [1; 2; 3] "User2").
    apply history_user_index.
  - apply (user_comments_in_authoring_order store_user_index_deleted [1; 2; 3]
             "User1").
    apply history_user_index_deleted.
  - apply (user_comments_in_authoring_order store_user_index [1; 2; 3] "Nobody").
    + apply history_user_index.
    + reflexivity.
Defined.

(** ** Deletion: what holds and what does not *)

(** A comment without replies is deleted as the specification says: the
    call returns true, and the comment is gone from the index, from every
    per-user list, from the posts and from every reply list.  An id that is
    not in the index gives false and changes nothing. *)
Lemma delete_comment_without_replies s fuel i :
  reachable s →
  (∀ c, comments s !! i = Some c → Comment.replies c = [] →
     ∃ s', delete_comment (S fuel) i s = Ret true s' ∧
       comments s' !! i = None ∧
       (∀ u l, user_comments s' !! u = Some l → i ∉ l) ∧
       (i ∉ top_level (posts s')) ∧
       (∀ j cj, comments s' !! j = Some cj → i ∉ Comment.replies cj)) ∧
  (comments s !! i = None → delete_comment (S fuel) i s = Ret false s).
Proof.
  intros W%reachable_wf. split; [|by apply delete_comment_absent, W].
  intros c Hc Hleaf. exists (deleted i c s).
  pose proof (wf_deleted s i c W Hc Hleaf) as W'.
  destruct (deleted_fields s i c W Hc) as (_ & _ & _ & L & _).
  assert (comments (deleted i c s) !! i = None) as Hnone
    by (by rewrite L, decide_True).
  split; [apply delete_comment_leaf; eauto using wf_parent_cond; apply W|].
  split; [done|]. split; [|split].
  - intros u l Hl Hin. destruct (wf_users _ W' u l Hl) as [_ Hmem].
    apply Hmem in Hin as (c' & Hc' & _). congruence.
  - intros Hin. destruct (wf_posts _ W' i Hin) as (c' & Hc' & _). congruence.
  - intros j cj Hcj Hin.
    destruct (wf_replies _ W' j cj i Hcj Hin) as (c' & Hc' & _). congruence.
Qed.

(** C1 fails on the code.  In the store of [test_delete_comment], comment 1
    has the reply 3.  [delete_comment 1] never returns, whatever the fuel:
    with fuel for the recursive call it blocks, on the lock it holds
    itself, in a store where comments 1 and 3 are still in the index and 3
    is still in the list of its author. *)
Theorem delete_comment_of_test_blocks :
  (∃ c, comments store_test_delete !! 1 = Some c ∧ Comment.replies c = [3]) ∧
  ∀ fuel,
    (∀ v s', delete_comment fuel 1 store_test_delete ≠ Ret v s') ∧
    ∃ s', delete_comment (S (S fuel)) 1 store_test_delete = Blocked s' ∧
          lock s' = true ∧
          is_Some (comments s' !! 1) ∧ is_Some (comments s' !! 3) ∧
          user_comments s' !! "User3" = Some [3].
Proof.
  set (c := Comment.mk 1 "User1" "First comment." 100 None [3] 0 false).
  assert (comments store_test_delete !! 1 = Some c) as Hc by reflexivity.
  split; [by exists c|]. intros fuel. split.
  - apply (delete_comment_no_return fuel store_test_delete 1 c); done.
  - exists (detached 1 c store_test_delete).
    split; [by apply delete_comment_blocks|].
    split; [reflexivity|]. split; [by eexists|]. split; [by eexists|].
    reflexivity.
Qed.

(** C9 fails on the code.  On every reachable store, [delete_comment] on a
    comment that has replies does not run to completion: the recursive call
    for the first reply goes through the public entry, which acquires the
    lock the outer call still holds, and [threading.Lock] is not
    re-entrant.  With fuel for that call the outcome is [Blocked], the lock
    held for ever; with any fuel the call does not return. *)
Theorem delete_comment_reacquires_lock (s : CommentSystem) (i : Z)
    (c : Comment.t) :
  reachable s → comments s !! i = Some c → Comment.replies c ≠ [] →
  (∀ fuel, delete_comment (S (S fuel)) i s = Blocked (detached i c s)) ∧
  lock (detached i c s) = true ∧
  (∀ fuel v s', delete_comment fuel i s ≠ Ret v s').
Proof.
  intros W%reachable_wf Hc Hr. split; [|split].
  - intros fuel. apply delete_comment_blocks;
      eauto using wf_parent_cond. apply W.
  - apply detached_lock.
  - intros fuel. apply (delete_comment_no_return fuel s i c);
      eauto using wf_parent_cond. apply W.
Qed.

Lemma delete_comment_reacquires_lock_witness :
  ∃ s', delete_comment 8 1 store_test_delete = Blocked s' ∧ lock s' = true.
Proof.
  destruct (delete_comment_reacquires_lock store_test_delete 1
              (Comment.mk 1 "User1" "First comment." 100 None [3] 0 false))
    as (H & Hl & _);
    [eexists; apply history_test_delete|reflexivity|done|].
  eexists. split; [apply (H 6%nat)|exact Hl].
Defined.

(** C6 fails on the code.  In the store of [test_delete_comment] the list
    of User1 is [1].  [delete_comment 1], which has to cascade to the reply
    3, takes comment 1 off the list of User1 and then blocks on the lock it
    holds itself: it leaves a store in which comment 1, by User1, is still
    in the index while the list of User1 is empty, so the list no longer
    holds the ids of that user's comments of the index; and
    [get_user_comments] on that store blocks as well. *)
Theorem user_list_loses_indexed_comment :
  user_comments store_test_delete !! "User1" = Some [1] ∧
  ∀ fuel, ∃ s',
    delete_comment (S (S fuel)) 1 store_test_delete = Blocked s' ∧
    (∃ c, comments s' !! 1 = Some c ∧ Comment.user c = "User1") ∧
    user_comments s' !! "User1" = Some [] ∧
    get_user_comments "User1" s' = Blocked s'.
Proof.
  split; [vm_compute; reflexivity|]. intros fuel.
  set (c := Comment.mk 1 "User1" "First comment." 100 None [3] 0 false).
  exists (detached 1 c store_test_delete). split.
  - apply delete_comment_blocks; [vm_compute; reflexivity..|done|done].
  - split; [exists c; split; vm_compute; reflexivity|].
    split; [vm_compute; reflexivity|].
    unfold get_user_comments. apply with_lock_held. apply detached_lock.
Qed.


(** * Further properties of the methods *)

(** ** [toggle_collapse] *)

(** On a store whose lock is free, [toggle_collapse] on a comment of the
    index returns true and inverts its collapsed flag, leaving every other
    field and comment as it was, and a second call gives back the store the
    first one started from; on an id outside the index it returns false and
    leaves the store as it is. *)
Theorem toggle_collapse_twice (s : CommentSystem) (i : Z) :
  lock s = false →
  (∀ c, comments s !! i = Some c →
     let flipped := set_comments
       (<[i := Comment.set_collapsed (negb (Comment.collapsed c)) c]>
          (comments s)) s in
     toggle_collapse i s = Ret true flipped ∧
     toggle_collapse i flipped = Ret true s) ∧
  (comments s !! i = None → toggle_collapse i s = Ret false s).
Proof.
  intros Hl. split; [|by apply toggle_absent].
  intros c Hc. simpl. split; [by apply toggle_present|].
  erewrite toggle_present; [|done|apply lookup_insert_eq].
  f_equal. destruct s as [ps cs uc nc np lk]; simpl in *.
  unfold set_comments; simpl. f_equal.
  rewrite insert_insert_eq. apply insert_id. rewrite Hc. f_equal.
  destruct c; unfold Comment.set_collapsed; simpl. f_equal.
  symmetry. apply negb_involutive.
Qed.

Lemma toggle_collapse_twice_witness :
  lock store_test_delete = false ∧
  toggle_collapse 1 store_test_delete = Ret true store_collapsed ∧
  toggle_collapse 1 store_collapsed = Ret true store_test_delete ∧
  toggle_collapse 9 store_test_delete = Ret false store_test_delete.
Proof.
  split; [reflexivity|].
  destruct (toggle_collapse_twice store_test_delete 1 eq_refl) as [H _].
  destruct (toggle_collapse_twice store_test_delete 9 eq_refl) as [_ H9].
  destruct (H (Comment.mk 1 "User1" "First comment." 100 None [3] 0 false)
              eq_refl) as [H1 H2].
  split; [exact H1|]. split; [exact H2|]. apply H9. reflexivity.
Defined.

(** ** Reading never writes *)

(** On a store whose lock is free, [get_comments_view] and
    [get_user_comments] leave the store exactly as it was on every path on
    which they complete, the [ValueError] and [KeyError] paths included;
    and the "tree" view of a post is its list of top-level comments as it
    stands, computed without any recursion. *)
Theorem reads_leave_store (s : CommentSystem) :
  lock s = false →
  (∀ fuel post_id view_type s',
     completes (get_comments_view fuel post_id view_type s) s' → s' = s) ∧
  (∀ u s', completes (get_user_comments u s) s' → s' = s) ∧
  (∀ fuel post_id post, dict_get post_id (posts s) = Some post →
     get_comments_view fuel post_id "tree" s = Ret (Post.comments post) s).
Proof.
  intros Hl. split; [|split].
  - intros fuel post_id view_type s'. by apply view_completes.
  - intros u s'. by apply get_user_comments_completes.
  - intros fuel post_id post Hp. unfold get_comments_view.
    rewrite with_lock_free by done. run. rewrite Hp. simpl.
    by rewrite set_lock_release.
Qed.

Lemma reads_leave_store_witness :
  lock store_test_delete = false ∧
  get_comments_view 0 1 "tree" store_test_delete = Ret [1; 2] store_test_delete.
Proof.
  split; [reflexivity|].
  destruct (reads_leave_store store_test_delete eq_refl) as (_ & _ & H).
  apply (H 0%nat 1 (Post.mk 1 "Post Title" [1; 2])). reflexivity.
Defined.

(** ** Lock discipline *)

Lemma with_lock_completes {A} (body : M A) s s' :
  completes (with_lock body s) s' → lock s' = false.
Proof.
  unfold with_lock. destruct (lock s); [done|].
  destruct (body (set_lock true s)); simpl; try done; by intros ->.
Qed.

(** Whatever the store, a call that completes, by returning or by raising,
    on a store whose lock was free leaves the lock free. *)
Theorem lock_released_on_exit (s : CommentSystem) (o : op) (s' : CommentSystem) :
  lock s = false → completes (perform o s) s' → lock s' = false.
Proof.
  intros Hl Hs'.
  destruct o; cbn [perform] in Hs'; apply (proj1 (completes_perform _ _ _)) in Hs';
    try (by eapply with_lock_completes).
  - unfold add_comment in Hs'.
    destruct (negb (truthy user) || negb (truthy (strip content)));
      [simpl in Hs'; by subst|by eapply with_lock_completes].
  - destruct fuel; [done|]. simpl in Hs'. by eapply with_lock_completes.
Qed.

Lemma lock_released_on_exit_witness :
  lock (after (get_comments_view 0 1 "grid") store_test_delete) = false.
Proof.
  apply (lock_released_on_exit store_test_delete (GetCommentsView 0 1 "grid"));
    reflexivity.
Defined.

(** While the lock is held no method gets past it: every call blocks with
    the store untouched.  The one exception is [add_comment] with an empty
    user or a blank content, which is turned down before the lock is
    asked for. *)
Theorem held_lock_blocks (s : CommentSystem) :
  lock s = true →
  (∀ title, create_post title s = Blocked s) ∧
  (∀ fuel post_id user content parent now,
     add_comment fuel post_id user content parent now s =
       if decide (user = EmptyString ∨ all_space content = true)
       then Ret None s else Blocked s) ∧
  (∀ fuel post_id view_type,
     get_comments_view fuel post_id view_type s = Blocked s) ∧
  (∀ i, upvote_comment i s = Blocked s ∧ downvote_comment i s = Blocked s ∧
        toggle_collapse i s = Blocked s) ∧
  (∀ u, get_user_comments u s = Blocked s) ∧
  (∀ fuel i, delete_comment (S fuel) i s = Blocked s).
Proof.
  intros Hl. repeat split; intros; try (by apply with_lock_held).
  case_decide as H.
  - apply add_comment_none. tauto.
  - unfold add_comment.
    assert (truthy user = true) as -> by (apply truthy_true; tauto).
    assert (truthy (strip content) = true) as ->.
    { apply truthy_strip. destruct (all_space content); tauto. }
    simpl. by apply with_lock_held.
Qed.

Lemma held_lock_blocks_witness :
  upvote_comment 1 (set_lock true store_test_delete)
    = Blocked (set_lock true store_test_delete) ∧
  add_comment 8 1 "" "text" None 100 (set_lock true store_test_delete)
    = Ret None (set_lock true store_test_delete).
Proof.
  destruct (held_lock_blocks (set_lock true store_test_delete) eq_refl)
    as (_ & Hadd & _ & Hvote & _).
  split; [apply Hvote|]. apply (Hadd 8%nat 1 "" "text" None 100).
Defined.

(** ** Post ids *)

Lemma dict_set_keys_fresh {V} k (v : V) d :
  (∀ k' v', (k', v') ∈ d → k' ≠ k) → (dict_set k v d).*1 = d.*1 ++ [k].
Proof. intros H. rewrite dict_set_fresh by done. by rewrite fmap_app. Qed.

Lemma dict_set_keys_present {V} k (v v0 : V) d :
  dict_get k d = Some v0 → (dict_set k v d).*1 = d.*1.
Proof.
  induction d as [|[k' v'] d IH]; simpl; [done|].
  case_bool_decide; subst; simpl; [done|]. intros Hg. f_equal. by apply IH.
Qed.

Lemma remove_from_posts_keys_eq i ps : (remove_from_posts i ps).*1 = ps.*1.
Proof.
  induction ps as [|[k post] ps IH]; simpl; [done|].
  case_bool_decide; simpl; [done|]. by f_equal.
Qed.

Lemma dict_get_set_eq {V} k (v : V) d : dict_get k (dict_set k v d) = Some v.
Proof.
  induction d as [|[k' v'] d IH]; simpl.
  - by rewrite bool_decide_eq_true_2.
  - case_bool_decide; simpl.
    + by rewrite bool_decide_eq_true_2.
    + by rewrite bool_decide_eq_false_2.
Qed.

Lemma dict_get_set_ne {V} k k' (v : V) d :
  k' ≠ k → dict_get k' (dict_set k v d) = dict_get k' d.
Proof.
  intros Hne. induction d as [|[k0 v0] d IH]; simpl.
  - by rewrite bool_decide_eq_false_2.
  - case_bool_decide; subst; simpl.
    + by rewrite !bool_decide_eq_false_2.
    + case_bool_decide; [done|apply IH].
Qed.

(** What a completed call does to the keys of [posts] and to the post
    counter. *)
Lemma step_posts s o s' :
  wf s → completes (perform o s) s' →
  ((posts s').*1 = (posts s).*1 ∧ next_post_id s' = next_post_id s) ∨
  ((posts s').*1 = (posts s).*1 ++ [next_post_id s] ∧
   next_post_id s' = next_post_id s + 1).
Proof.
  intros W Hs'. pose proof (wf_lock s W) as Hl.
  destruct o; cbn [perform] in Hs'; apply (proj1 (completes_perform _ _ _)) in Hs'.
  - right. destruct (wf_create_post s title W) as [E _]. rewrite E in Hs'.
    simpl in Hs'. subst. simpl. split; [|done].
    apply dict_set_keys_fresh. intros k v Hin.
    pose proof (wf_post_ids s W k v Hin). lia.
  - left. apply add_comment_completes in Hs';
      [|done|by intros; eapply wf_fresh].
    destruct Hs' as [->|[(post & -> & Hpost & ->)
                        |(p & pc & d & -> & Hpc & Hd & Hd4 & [->| ->])]];
      try done.
    + simpl. split; [|done]. by eapply dict_set_keys_present.
    + unfold collapse. by case_match.
  - left. by apply view_completes in Hs' as ->.
  - left. destruct (comments s !! comment_id) as [c|] eqn:Hc.
    + rewrite (upvote_present s _ c) in Hs' by done. simpl in Hs'. by subst.
    + destruct (vote_absent s comment_id Hl Hc) as [E _]. rewrite E in Hs'.
      simpl in Hs'. by subst.
  - left. destruct (comments s !! comment_id) as [c|] eqn:Hc.
    + rewrite (downvote_present s _ c) in Hs' by done. simpl in Hs'. by subst.
    + destruct (vote_absent s comment_id Hl Hc) as [_ E]. rewrite E in Hs'.
      simpl in Hs'. by subst.
  - left. destruct (comments s !! comment_id) as [c|] eqn:Hc.
    + rewrite (toggle_present s _ c) in Hs' by done. simpl in Hs'. by subst.
    + rewrite toggle_absent in Hs' by done. simpl in Hs'. by subst.
  - left. by apply get_user_comments_completes in Hs' as ->.
  - left. apply delete_comment_completes in Hs' as [->|(c & Hc & Hleaf & ->)];
      [done| |done].
    unfold deleted, detached. simpl.
    repeat case_match; simpl; rewrite ?remove_from_posts_keys_eq; done.
Qed.

Lemma history_posts s log :
  history s log →
  ∃ n : nat, next_post_id s = Z.of_nat (S n) ∧
             (posts s).*1 = Z.of_nat <$> seq 1 n.
Proof.
  induction 1 as [|s log o s' Hh (n & Hn & Hkeys) Hs'].
  { by exists 0%nat. }
  pose proof (history_wf s log Hh) as W.
  destruct (step_posts s o s' W Hs') as [[E1 E2]|[E1 E2]].
  - exists n. by rewrite E1, E2.
  - exists (S n). rewrite E1, E2, Hkeys, Hn. split; [lia|].
    rewrite seq_S, fmap_app. simpl. do 2 f_equal.
Qed.

(** Posts are numbered 1, 2, 3, ... in the order of their creation: in a
    reachable store that holds [n] posts their keys are 1 to [n], in the
    order of the dictionary, and [create_post] returns [n + 1], files an
    empty post under it after the others, and changes neither another post
    nor any comment. *)
Theorem create_post_numbers_posts (s : CommentSystem) (title : string) :
  reachable s →
  ∃ n : nat,
    (posts s).*1 = Z.of_nat <$> seq 1 n ∧
    ∃ s', create_post title s = Ret (Z.of_nat (S n)) s' ∧
      (posts s').*1 = Z.of_nat <$> seq 1 (S n) ∧
      dict_get (Z.of_nat (S n)) (posts s)  = None ∧
      dict_get (Z.of_nat (S n)) (posts s')
        = Some (Post.mk (Z.of_nat (S n)) title []) ∧
      (∀ k, k ≠ Z.of_nat (S n) → dict_get k (posts s') = dict_get k (posts s)) ∧
      comments s' = comments s ∧ user_comments s' = user_comments s ∧
      next_comment_id s' = next_comment_id s.
Proof.
  intros [log Hh]. pose proof (history_wf s log Hh) as W.
  destruct (history_posts s log Hh) as (n & Hn & Hkeys).
  destruct (wf_create_post s title W) as [E _].
  exists n. split; [done|]. eexists. rewrite <- Hn. split; [exact E|].
  assert (∀ k v, (k, v) ∈ posts s → k ≠ next_post_id s) as Hfresh.
  { intros k v Hin. pose proof (wf_post_ids s W k v Hin). lia. }
  split; [|simpl; split; [|split; [|split]]].
  - cbn [posts set_posts]. rewrite dict_set_keys_fresh by done.
    cbn [posts set_next_post_id]. rewrite Hkeys, Hn.
    rewrite seq_S, fmap_app. simpl. do 2 f_equal.
  - by apply dict_get_fresh.
  - apply dict_get_set_eq.
  - intros k Hk. by apply dict_get_set_ne.
  - done.
Qed.

Lemma create_post_numbers_posts_witness :
  ∃ s', create_post "Second" store_test_delete = Ret 2 s' ∧
        dict_get 2 (posts s') = Some (Post.mk 2 "Second" []).
Proof.
  destruct (create_post_numbers_posts store_test_delete "Second")
    as (n & Hkeys & s' & E & _ & _ & Hget & _);
    [eexists; apply history_test_delete|].
  assert (n = 1%nat) as -> by (by destruct n as [|[|n]]).
  by exists s'.
Defined.

(** ** The depth helper *)

Lemma depth_loop_absent fuel (cs : gmap Z Comment.t) i d :
  cs !! i = None → depth_loop fuel cs (Some i) d = Some d.
Proof. intros H. destruct fuel; simpl; by rewrite H. Qed.

(** [_get_comment_depth] gives 0 for an id that is not in the index, with
    no loop turn at all.  On a reachable store, with fuel 5 or more, it
    gives for every comment of the index its number of hops to a root,
    which is at most 4: 0 for a comment without parent, and one more than
    the parent's depth for a reply. *)
Theorem get_comment_depth_is_hops (s : CommentSystem) (fuel : nat) (i : Z) :
  (comments s !! i = None → _get_comment_depth fuel (comments s) i = Some 0%nat) ∧
  (reachable s → (5 ≤ fuel)%nat →
   ∀ c, comments s !! i = Some c →
     ∃ d, _get_comment_depth fuel (comments s) i = Some d ∧
          hops (comments s) i d ∧ (d ≤ 4)%nat ∧
          match Comment.parent_comment_id c with
          | None => d = 0%nat
          | Some p => ∃ dp, _get_comment_depth fuel (comments s) p = Some dp ∧
                            d = S dp
          end).
Proof.
  split; [apply depth_loop_absent|].
  intros W%reachable_wf Hf c Hc.
  destruct (wf_hops s i c W Hc) as (d & Hd & Hd4).
  exists d. split; [apply hops_get_comment_depth; [done|lia]|].
  split; [done|]. split; [done|].
  destruct (Comment.parent_comment_id c) as [p|] eqn:Hp.
  - inversion Hd as [? c' Hc' Hp'|? c' q n Hc' Hp' Hq]; simplify_eq.
    exists n. split; [|done]. apply hops_get_comment_depth; [done|lia].
  - inversion Hd as [? c' Hc' Hp'|? c' q n Hc' Hp' Hq]; simplify_eq. done.
Qed.

Lemma get_comment_depth_is_hops_witness :
  _get_comment_depth 0 (comments (chain 4)) 9 = Some 0%nat ∧
  ∃ d, _get_comment_depth 8 (comments (chain 4)) 5 = Some d ∧ (d ≤ 4)%nat.
Proof.
  destruct (get_comment_depth_is_hops (chain 4) 0 9) as [H0 _].
  destruct (get_comment_depth_is_hops (chain 4) 8 5) as [_ H5].
  split; [apply H0; vm_compute; reflexivity|].
  assert (comments (chain 4) !! 5
            = Some (Comment.mk 5 "User" "Reply" 104 (Some 4) [] 0 false))
    as Hc by (vm_compute; reflexivity).
  destruct (H5 reachable_chain_4 ltac:(lia) _ Hc) as (d & E & _ & Hd & _).
  exists d. split; [exact E|exact Hd].
Defined.

(** ** The subtree counter *)

Lemma descendants_ge_kids i c kids :
  (length kids ≤ descendants (Node i c kids))%nat.
Proof. rewrite descendants_node. lia. Qed.

(** On a reachable store, with fuel 5 or more, [_count_total_replies] on a
    comment of the index returns the number of descendants of the reply
    tree under it, and that tree, set at the comment's depth, fits in five
    levels.  The count is at least the number of direct replies and is 0
    for a comment without replies; [should_collapse_thread] answers whether
    it exceeds 10. *)
Theorem count_total_replies_is_descendants (s : CommentSystem) (fuel : nat)
    (i : Z) (c : Comment.t) :
  reachable s → (5 ≤ fuel)%nat → comments s !! i = Some c →
  ∃ t d, reify (comments s) i t ∧ hops (comments s) i d ∧
    (height t + d ≤ 5)%nat ∧
    _count_total_replies fuel (comments s) i = Some (descendants t) ∧
    should_collapse_thread fuel (comments s) i
      = Some (10 <? descendants t)%nat ∧
    (length (Comment.replies c) ≤ descendants t)%nat ∧
    (Comment.replies c = [] → descendants t = 0%nat).
Proof.
  intros W%reachable_wf Hf Hc.
  destruct (wf_hops s i c W Hc) as (d & Hd & Hd4).
  destruct (wf_reify_bounded s 5 W i c d Hc Hd) as (t & Ht & Hh); [lia|].
  exists t, d. split; [done|]. split; [done|]. split; [done|].
  pose proof (proj1 (count_reify _) i t Ht fuel) as E.
  rewrite E by lia. split; [done|].
  unfold should_collapse_thread. rewrite E by lia. split; [done|].
  inversion Ht as [? c' kids Hc' Hkids]; simplify_eq.
  rewrite (reify_forest_length _ _ _ Hkids). split.
  - apply descendants_ge_kids.
  - intros Hnil. rewrite Hnil in Hkids. by inversion Hkids.
Qed.

Lemma count_total_replies_is_descendants_witness :
  ∃ t, reify (comments store_test_delete) 1 t ∧ descendants t = 1%nat ∧
       _count_total_replies 8 (comments store_test_delete) 1 = Some 1%nat.
Proof.
  destruct (count_total_replies_is_descendants store_test_delete 8 1
              (Comment.mk 1 "User1" "First comment." 100 None [3] 0 false))
    as (t & d & Ht & _ & _ & E & _);
    [eexists; apply history_test_delete|lia|reflexivity|].
  exists t. split; [exact Ht|].
  assert (_count_total_replies 8 (comments store_test_delete) 1 = Some 1%nat)
    as E1 by reflexivity.
  rewrite E1 in E. injection E as <-. by split.
Defined.

(** ** What a successful [add_comment] leaves *)

(** Ids are handed out in increasing order and never again: when a
    sequence of completed calls has authored the comments of [log], deleted
    ones included, an [add_comment] that returns a comment returns the
    current value of the counter, which is above every id of [log] and is
    no key of the index, and moves the counter one up. *)
Theorem comment_ids_never_reused (s : CommentSystem) (log : list Z)
    (fuel : nat) (post_id : Z) (user content : string) (parent : option Z)
    (now i : Z) (s' : CommentSystem) :
  history s log →
  add_comment fuel post_id user content parent now s = Ret (Some i) s' →
  i = next_comment_id s ∧ (∀ j, j ∈ log → j < i) ∧
  comments s !! i = None ∧ next_comment_id s' = i + 1 ∧
  history s' (log ++ [i]).
Proof.
  intros Hh E. pose proof (history_wf s log Hh) as W.
  destruct (history_log s log Hh) as (_ & Hlt & _).
  assert (history s' (log ++ [i])) as Hh'.
  { apply (history_step_eq s log
             (AddComment fuel post_id user content parent now)); [done| |].
    - cbn [perform]. apply completes_perform. by rewrite E.
    - simpl. by rewrite E. }
  destruct (add_comment_outcome fuel s post_id user content parent now
              (wf_lock s W) (λ j c, wf_fresh s j c W))
    as [E'|[E'|[(post & -> & Hp & E')
               |(p & pc & d & b & -> & Hpc & Hd & Hd4 & Hb & E')]]];
    rewrite E in E'; simplify_eq.
  - split; [done|]. split; [done|]. split; [by apply wf_next_absent|].
    by split.
  - split; [done|]. split; [done|]. split; [by apply wf_next_absent|].
    split; [|done]. destruct b; [|done]. unfold collapse. by case_match.
Qed.

Lemma comment_ids_never_reused_witness :
  ∃ s', add_comment 8 1 "User1" "Again" None 105 store_user_index_deleted
          = Ret (Some 4) s' ∧
        comments store_user_index_deleted !! 1 = None.
Proof.
  assert (add_comment 8 1 "User1" "Again" None 105 store_user_index_deleted
          = Ret (Some 4)
              (after (add_comment 8 1 "User1" "Again" None 105)
                     store_user_index_deleted)) as E by reflexivity.
  destruct (comment_ids_never_reused store_user_index_deleted [1; 2; 3] 8 1
              "User1" "Again" None 105 4 _ history_user_index_deleted E)
    as (_ & Hlog & _).
  eexists. split; [exact E|]. reflexivity.
Defined.

(** On a reachable store, an [add_comment] that returns the comment [i]
    has filed, under [i], a comment with the user, content, time and
    parent given, no replies, no votes, not collapsed; it has put [i] last
    in the author's list and left the other lists alone.  A top-level
    comment goes last in the list of its post, and no other post and no
    other comment changes.  A reply goes last in the replies of its
    parent, whose other fields, the collapsed flag apart, stay as they
    were; no post and no further comment changes. *)
Theorem add_comment_files_comment (s : CommentSystem) (fuel : nat)
    (post_id : Z) (user content : string) (parent : option Z)
    (now i : Z) (s' : CommentSystem) :
  reachable s →
  add_comment fuel post_id user content parent now s = Ret (Some i) s' →
  comments s' !! i = Some (Comment.mk i user content now parent [] 0 false) ∧
  user_comments s' !! user
    = Some (default [] (user_comments s !! user) ++ [i]) ∧
  (∀ u, u ≠ user → user_comments s' !! u = user_comments s !! u) ∧
  match parent with
  | None =>
      ∃ post, dict_get post_id (posts s) = Some post ∧
        dict_get post_id (posts s')
          = Some (Post.mk (Post.id post) (Post.title post)
                          (Post.comments post ++ [i])) ∧
        (∀ k, k ≠ post_id → dict_get k (posts s') = dict_get k (posts s)) ∧
        (∀ j, j ≠ i → comments s' !! j = comments s !! j)
  | Some p =>
      ∃ pc pc', comments s !! p = Some pc ∧ comments s' !! p = Some pc' ∧
        Comment.replies pc' = Comment.replies pc ++ [i] ∧
        Comment.set_collapsed (Comment.collapsed pc)
          (Comment.set_replies (Comment.replies pc) pc') = pc ∧
        posts s' = posts s ∧
        (∀ j, j ≠ i → j ≠ p → comments s' !! j = comments s !! j)
  end.
Proof.
  intros W%reachable_wf E.
  destruct (add_comment_outcome fuel s post_id user content parent now
              (wf_lock s W) (λ j c, wf_fresh s j c W))
    as [E'|[E'|[(post & -> & Hp & E')
               |(p & pc & d & b & -> & Hpc & Hd & Hd4 & Hb & E')]]];
    rewrite E in E'; simplify_eq.
  - pose proof (added_top_lookup s post_id post user content now) as L.
    split; [by rewrite L, decide_True|].
    split; [unfold added_top, set_posts; cbn [user_comments];
            by rewrite inserted_users, decide_True|].
    split; [intros u Hu; unfold added_top; simpl;
            by rewrite lookup_insert_ne|].
    exists post. split; [done|]. split; [apply dict_get_set_eq|].
    split; [intros k Hk; by apply dict_get_set_ne|].
    intros j Hj. by rewrite L, decide_False.
  - pose proof (wf_fresh s p pc W Hpc) as Hne.
    pose proof (added_reply_lookup s p pc user content now) as L.
    set (s1 := added_reply s p pc user content now) in *.
    set (n := next_comment_id s) in *.
    assert (∀ j, j ≠ p →
              comments (if b then collapse p s1 else s1) !! j
                = comments s1 !! j) as Lc.
    { intros j Hj. destruct b; [|done]. rewrite collapse_lookup.
      by rewrite decide_False. }
    assert (user_comments (if b then collapse p s1 else s1)
            = user_comments s1) as Eu.
    { destruct b; [|done]. unfold collapse. by case_match. }
    assert (posts (if b then collapse p s1 else s1) = posts s) as Ep.
    { destruct b; [|done]. unfold collapse. by case_match. }
    split.
    { rewrite Lc by done. rewrite L by done.
      rewrite decide_False by done. by rewrite decide_True. }
    split; [rewrite Eu; unfold s1, added_reply; simpl;
            by rewrite lookup_insert_eq|].
    split; [intros u Hu; rewrite Eu; unfold s1, added_reply; simpl;
            by rewrite lookup_insert_ne|].
    exists pc.
    exists (if b
            then Comment.set_collapsed true
                   (Comment.set_replies (Comment.replies pc ++ [n]) pc)
            else Comment.set_replies (Comment.replies pc ++ [n]) pc).
    split; [done|]. split.
    { destruct b.
      - rewrite collapse_lookup, decide_True by done.
        rewrite L by done. by rewrite decide_True.
      - rewrite L by done. by rewrite decide_True. }
    split; [by destruct b|]. split; [by destruct b, pc|].
    split; [done|].
    intros j Hj Hjp. rewrite Lc by done. rewrite L by done.
    by rewrite !decide_False.
Qed.

Lemma add_comment_files_comment_witness :
  comments store_test_delete !! 3
    = Some (Comment.mk 3 "User3" "Reply to first comment." 102 (Some 1) [] 0
              false) ∧
  user_comments store_test_delete !! "User3" = Some [3].
Proof.
  assert (reachable store_two_comments) as Hr
    by (eexists; apply history_two_comments).
  destruct (add_comment_files_comment store_two_comments 8 1 "User3"
              "Reply to first comment." (Some 1) 102 3 store_test_delete Hr
              eq_refl) as (H1 & H2 & _).
  split; [exact H1|exact H2].
Defined.

(** ** Deleting a comment without replies *)

Lemma delete_comment_without_replies_witness :
  ∃ s', delete_comment 8 1 store_user_index = Ret true s' ∧
        comments s' !! 1 = None ∧
        delete_comment 8 9 store_user_index = Ret false store_user_index.
Proof.
  destruct (delete_comment_without_replies store_user_index 7 1) as [H _];
    [eexists; apply history_user_index|].
  destruct (delete_comment_without_replies store_user_index 7 9) as [_ H9];
    [eexists; apply history_user_index|].
  destruct (H (Comment.mk 1 "User1" "First comment." 100 None [] 0 false)
              eq_refl eq_refl) as (s' & E & Hnone & _).
  exists s'. split; [exact E|]. split; [exact Hnone|]. apply H9. reflexivity.
Defined.



(** ** Where a comment is held *)

(** In a reachable store every comment is held in exactly one place.  A
    comment without parent is in the list of a post, once over all posts,
    and in no reply list; a reply is in the reply list of its parent, which
    is in the index, once, and in no other reply list and in no post.
    Conversely every reference held by a post or by a reply list is a key
    of the index. *)
Theorem every_comment_in_one_place (s : CommentSystem) :
  reachable s →
  (∀ i c, comments s !! i = Some c →
     match Comment.parent_comment_id c with
     | None =>
         i ∈ top_level (posts s) ∧
         ∀ j cj, comments s !! j = Some cj → i ∉ Comment.replies cj
     | Some p =>
         (∃ pc, comments s !! p = Some pc ∧ i ∈ Comment.replies pc) ∧
         (i ∉ top_level (posts s)) ∧
         ∀ j cj, comments s !! j = Some cj → i ∈ Comment.replies cj → j = p
     end) ∧
  NoDup (top_level (posts s)) ∧
  (∀ j cj, comments s !! j = Some cj → NoDup (Comment.replies cj)) ∧
  (∀ r, r ∈ top_level (posts s) → is_Some (comments s !! r)) ∧
  (∀ j cj r, comments s !! j = Some cj → r ∈ Comment.replies cj →
     is_Some (comments s !! r)).
Proof.
  intros W%reachable_wf. split; [|split; [|split; [|split]]].
  - intros i c Hc. destruct (Comment.parent_comment_id c) as [p|] eqn:Hp.
    + split; [by destruct (wf_parent s W i c p Hc Hp)|]. split.
      * intros Hin. destruct (wf_posts s W i Hin) as (c' & Hc' & Hp').
        congruence.
      * intros j cj Hcj Hin.
        destruct (wf_replies s W j cj i Hcj Hin) as (c' & Hc' & Hp').
        congruence.
    + split; [by apply (wf_roots s W i c)|].
      intros j cj Hcj Hin.
      destruct (wf_replies s W j cj i Hcj Hin) as (c' & Hc' & Hp').
      congruence.
  - apply W.
  - apply W.
  - intros r Hr. destruct (wf_posts s W r Hr) as (c & Hc & _). eauto.
  - intros j cj r Hcj Hr.
    destruct (wf_replies s W j cj r Hcj Hr) as (c & Hc & _). eauto.
Qed.

Lemma every_comment_in_one_place_witness :
  (∃ pc, comments store_test_delete !! 1 = Some pc ∧ 3 ∈ Comment.replies pc) ∧
  (3 ∉ top_level (posts store_test_delete)) ∧
  NoDup (top_level (posts store_test_delete)).
Proof.
  destruct (every_comment_in_one_place store_test_delete) as (H & Hnd & _);
    [eexists; apply history_test_delete|].
  assert (comments store_test_delete !! 3
            = Some (Comment.mk 3 "User3" "Reply to first comment." 102 (Some 1)
                      [] 0 false)) as Hc by (vm_compute; reflexivity).
  pose proof (H 3 _ Hc) as Hx. cbn [Comment.parent_comment_id] in Hx.
  destruct Hx as (Hpc & Hnot & _).
  split; [exact Hpc|]. split; [exact Hnot|exact Hnd].
Defined.

(** ** What the flat view lists *)

Lemma preorder_head cs i t : reify cs i t → ∃ rest, preorder t = i :: rest.
Proof. intros H. inversion H; subst. simpl. eauto. Qed.

Lemma flat_listing s :
  wf s →
  (∀ i t, reify (comments s) i t →
     (∀ j, j ∈ preorder t → j = i ∨
        ∃ c p pc, comments s !! j = Some c ∧
          Comment.parent_comment_id c = Some p ∧ p ∈ preorder t ∧
          comments s !! p = Some pc ∧ Comment.collapsed pc = false) ∧
     (∀ c, comments s !! i = Some c →
        Comment.collapsed c = true ∨ Comment.replies c = [] →
        preorder t = [i])) ∧
  (∀ l ts, reify_forest (comments s) l ts →
     (∀ j, j ∈ preorder_forest ts → j ∈ l ∨
        ∃ c p pc, comments s !! j = Some c ∧
          Comment.parent_comment_id c = Some p ∧ p ∈ preorder_forest ts ∧
          comments s !! p = Some pc ∧ Comment.collapsed pc = false) ∧
     l `sublist_of` preorder_forest ts ∧
     ((∀ r, r ∈ l → ∃ c, comments s !! r = Some c ∧
          (Comment.collapsed c = true ∨ Comment.replies c = [])) →
      preorder_forest ts = l)).
Proof.
  intros W. apply reify_mutind.
  - intros i c kids Hc Hkids (IHa & _ & _). split.
    + intros j. simpl. intros [->|Hj]%elem_of_cons; [by left|]. right.
      destruct (Comment.collapsed c) eqn:Hcol; [by apply elem_of_nil in Hj|].
      destruct (IHa j Hj) as [Hin|(cj & p & pc & Hcj & Hp & Hpin & Hpc & Hpcol)].
      * destruct (wf_replies s W i c j Hc Hin) as (cj & Hcj & Hp).
        exists cj, i, c. split; [done|]. split; [done|].
        split; [by left|done].
      * exists cj, p, pc. split; [done|]. split; [done|].
        split; [by right|done].
    + intros c' Hc' Hor. rewrite Hc in Hc'. injection Hc' as <-. simpl.
      destruct Hor as [-> | Hnil]; [done|].
      rewrite Hnil in Hkids. inversion Hkids; subst.
      by destruct (Comment.collapsed c).
  - split; [by intros j ?%elem_of_nil|]. split; [constructor|done].
  - intros i l t ts Ht [IHta IHtc] Hts (IHa & IHsub & IHc).
    destruct (preorder_head _ _ _ Ht) as [rest Hrest].
    assert (preorder_forest (t :: ts) = preorder t ++ preorder_forest ts)
      as Eapp by done.
    rewrite Eapp. split; [|split].
    + intros j [Hj|Hj]%elem_of_app.
      * destruct (IHta j Hj) as [->|(cj & p & pc & Hcj & Hp & Hpin & Hpc & Hpcol)];
          [left; by left|].
        right. exists cj, p, pc. split; [done|]. split; [done|].
        split; [|done]. apply elem_of_app. by left.
      * destruct (IHa j Hj) as [Hin|(cj & p & pc & Hcj & Hp & Hpin & Hpc & Hpcol)];
          [left; by right|].
        right. exists cj, p, pc. split; [done|]. split; [done|].
        split; [|done]. apply elem_of_app. by right.
    + rewrite Hrest. simpl. apply sublist_skip. by apply sublist_inserts_l.
    + intros Hall. rewrite IHc by (intros r Hr; apply Hall; by right).
      destruct (Hall i) as (c & Hc & Hor); [by left|].
      by rewrite (IHtc c Hc Hor).
Qed.

Lemma flat_view_run s fuel post_id post :
  wf s → (6 ≤ fuel)%nat → dict_get post_id (posts s) = Some post →
  ∃ ts, reify_forest (comments s) (Post.comments post) ts ∧
        get_comments_view fuel post_id "flat" s = Ret (preorder_forest ts) s.
Proof.
  intros W Hf Hp.
  destruct (wf_reify_forest s (Post.comments post) W) as (ts & Hts & Hh).
  { intros r Hr. destruct (wf_posts s W r) as (rc & Hrc & _); [|eauto].
    by eapply dict_get_top_level. }
  exists ts. split; [done|].
  destruct fuel as [|fuel]; [lia|].
  unfold get_comments_view. rewrite with_lock_free by apply W. run.
  rewrite Hp. simpl. rewrite flatten_unfold.
  rewrite (proj2 (flatten_reify (comments s)) _ ts) by (done || lia).
  simpl. by rewrite set_lock_release by apply W.
Qed.

(** On a reachable store, with fuel 6 or more, the flat view of a post
    lists only comments of the index; the top-level comments of the post
    appear in it in their order; a reply is listed only if its parent is
    listed and is not collapsed; and when every top-level comment is
    collapsed or has no replies, the flat view is the tree view. *)
Theorem flat_view_lists (s : CommentSystem) (fuel : nat) (post_id : Z)
    (post : Post.t) :
  reachable s → (6 ≤ fuel)%nat → dict_get post_id (posts s) = Some post →
  ∃ l, get_comments_view fuel post_id "flat" s = Ret l s ∧
    Post.comments post `sublist_of` l ∧
    (∀ j, j ∈ l → ∃ c, comments s !! j = Some c ∧
       match Comment.parent_comment_id c with
       | None => j ∈ Post.comments post
       | Some p => p ∈ l ∧ ∃ pc, comments s !! p = Some pc ∧
                               Comment.collapsed pc = false
       end) ∧
    ((∀ r, r ∈ Post.comments post → ∃ c, comments s !! r = Some c ∧
         (Comment.collapsed c = true ∨ Comment.replies c = [])) →
     l = Post.comments post).
Proof.
  intros W%reachable_wf Hf Hp.
  destruct (flat_view_run s fuel post_id post W Hf Hp) as (ts & Hts & E).
  destruct (proj2 (flat_listing s W) _ _ Hts) as (Ha & Hsub & Hc).
  exists (preorder_forest ts). split; [done|]. split; [done|].
  split; [|done].
  intros j Hj.
  destruct (Ha j Hj) as [Hin|(c & p & pc & Hcj & Hpar & Hpin & Hpc & Hcol)].
  - destruct (wf_posts s W j) as (c & Hc' & Hroot);
      [by eapply dict_get_top_level|].
    exists c. split; [done|]. by rewrite Hroot.
  - exists c. split; [done|]. rewrite Hpar. split; [done|]. by exists pc.
Qed.

Lemma flat_view_lists_witness :
  get_comments_view 8 1 "flat" store_collapsed = Ret [1; 2] store_collapsed.
Proof.
  destruct (flat_view_lists store_collapsed 8 1 (Post.mk 1 "Post Title" [1; 2]))
    as (l & E & _ & _ & Htree);
    [eexists; apply history_collapsed|lia|reflexivity|].
  rewrite E. f_equal. apply Htree.
  intros r [->|[->|[]%elem_of_nil]%elem_of_cons]%elem_of_cons.
  - eexists. split; [reflexivity|]. by left.
  - eexists. split; [reflexivity|]. by right.
Defined.

(** ** A reply and the size of its parent's thread *)

Lemma count_foldl_ext f (cs1 cs2 : gmap Z Comment.t) l :
  (∀ r, r ∈ l → _count_total_replies f cs1 r = _count_total_replies f cs2 r) →
  ∀ a, foldl (count_step f cs1) a l = foldl (count_step f cs2) a l.
Proof.
  induction l as [|r l IH]; intros H a; simpl; [done|].
  rewrite IH by (intros; apply H; by right).
  f_equal. unfold count_step. by rewrite (H r) by (by left).
Qed.

Lemma count_foldl_shift f cs l a :
  foldl (count_step f cs) (Some (S a)) l
    = S <$> foldl (count_step f cs) (Some a) l.
Proof.
  revert a. induction l as [|r l IH]; intros a; simpl; [done|].
  destruct (_count_total_replies f cs r) as [k|]; simpl.
  - apply IH.
  - clear IH. induction l as [|r' l IH]; simpl; [done|]. apply IH.
Qed.

(** The count under a comment that comes after [p] does not see a reply
    added to [p]. *)
Lemma count_after_addition s p pc user content now f :
  wf s → comments s !! p = Some pc →
  ∀ r c, comments s !! r = Some c → p < r →
    _count_total_replies f (comments (added_reply s p pc user content now)) r
      = _count_total_replies f (comments s) r.
Proof.
  intros W Hpc. pose proof (wf_fresh s p pc W Hpc) as Hne.
  induction f as [|f IH]; intros r c Hc Hlt; [done|].
  rewrite !count_unfold. rewrite added_reply_lookup by done.
  rewrite decide_False by lia.
  rewrite decide_False by (by eapply wf_fresh). rewrite Hc. simpl.
  apply count_foldl_ext. intros r' Hr'.
  destruct (wf_replies s W r c r' Hc Hr') as (c' & Hc' & Hp').
  destruct (wf_parent s W r' c' r Hc' Hp') as [Hlt' _].
  apply (IH r' c'); [done|lia].
Qed.

Lemma count_grows_by_one s p pc user content now t fuel :
  wf s → comments s !! p = Some pc → reify (comments s) p t →
  (height t < fuel)%nat →
  _count_total_replies fuel (comments (added_reply s p pc user content now)) p
    = Some (S (descendants t)).
Proof.
  intros W Hpc Ht Hf. pose proof (wf_fresh s p pc W Hpc) as Hne.
  destruct fuel as [|f]; [lia|].
  pose proof (proj1 (count_reify _) p t Ht (S f) ltac:(lia)) as E.
  rewrite count_unfold, Hpc in E. cbn [mbind option_bind] in E.
  assert (_count_total_replies f
            (comments (added_reply s p pc user content now))
            (next_comment_id s) = Some 0%nat) as En.
  { destruct f as [|f]; [destruct t; cbn [height] in Hf; lia|].
    rewrite count_unfold. rewrite added_reply_lookup by done.
    rewrite decide_False by done. by rewrite decide_True. }
  rewrite count_unfold. rewrite added_reply_lookup by done.
  rewrite decide_True by done. cbn [mbind option_bind Comment.replies
                                    Comment.set_replies].
  rewrite length_app, foldl_app. cbn [foldl length].
  rewrite Nat.add_1_r, count_foldl_shift.
  rewrite (count_foldl_ext f _ (comments s)).
  - rewrite E. unfold count_step. rewrite En. simpl. f_equal. lia.
  - intros r Hr. destruct (wf_replies s W p pc r Hpc Hr) as (c & Hc & Hp).
    destruct (wf_parent s W r c p Hc Hp) as [Hlt _].
    by apply (count_after_addition s p pc user content now f W Hpc r c).
Qed.

(** On a reachable store, with fuel 6 or more, a reply that is accepted
    makes the thread under its parent exactly one comment larger, and
    leaves the parent collapsed exactly when it was collapsed already or
    had ten or more descendants before.  So a thread of ten or more that
    was expanded by hand is collapsed again by its next direct reply. *)
Theorem reply_grows_thread_by_one (s : CommentSystem) (fuel : nat)
    (post_id : Z) (post : Post.t) (user content : string)
    (p : Z) (pc : Comment.t) (d : nat) (now : Z) :
  reachable s → (6 ≤ fuel)%nat →
  user ≠ EmptyString → all_space content = false →
  dict_get post_id (posts s) = Some post → comments s !! p = Some pc →
  hops (comments s) p d → (d < 4)%nat →
  ∃ t s' pc' t',
    reify (comments s) p t ∧
    add_comment fuel post_id user content (Some p) now s
      = Ret (Some (next_comment_id s)) s' ∧
    comments s' !! p = Some pc' ∧ reify (comments s') p t' ∧
    descendants t' = S (descendants t) ∧
    Comment.collapsed pc'
      = Comment.collapsed pc || (10 <=? descendants t)%nat.
Proof.
  intros W%reachable_wf Hf Hu Hc Hp Hpc Hd Hd4.
  pose proof (wf_fresh s p pc W Hpc) as Hne.
  destruct (wf_reify s p pc W Hpc) as (t & Ht & Hh).
  destruct (add_comment_reply_run fuel s post_id post user content p pc d now)
    as (t1 & Ht1 & E); try done.
  pose proof (wf_added_reply s p pc d user content now W Hpc Hd Hd4) as W1.
  set (s1 := added_reply s p pc user content now) in *.
  set (pc1 := Comment.set_replies (Comment.replies pc ++ [next_comment_id s]) pc).
  assert (comments s1 !! p = Some pc1) as Hpc1.
  { unfold s1. rewrite added_reply_lookup by done. by rewrite decide_True. }
  assert (descendants t1 = S (descendants t)) as Hsize.
  { destruct (wf_reify s1 p pc1 W1 Hpc1) as (t1' & Ht1' & Hh1).
    pose proof (proj1 (reify_functional _) _ _ Ht1 _ Ht1'). subst t1'.
    pose proof (proj1 (count_reify _) p t1 Ht1 6%nat ltac:(lia)) as E1.
    unfold s1 in E1.
    rewrite (count_grows_by_one s p pc user content now t 6) in E1
      by (done || lia).
    congruence. }
  assert ((10 <? descendants t1)%nat = (10 <=? descendants t)%nat) as Hb.
  { rewrite Hsize. destruct (10 <=? descendants t)%nat eqn:Hle.
    - apply Nat.leb_le in Hle. apply Nat.ltb_lt. lia.
    - apply Nat.leb_gt in Hle. apply Nat.ltb_ge. lia. }
  rewrite Hb in E. exists t.
  destruct (10 <=? descendants t)%nat eqn:Hle.
  - destruct (wf_reify (collapse p s1) p (Comment.set_collapsed true pc1))
      as (t' & Ht' & Hh'); [by apply wf_collapse| |].
    { rewrite collapse_lookup, decide_True by done. by rewrite Hpc1. }
    exists (collapse p s1), (Comment.set_collapsed true pc1), t'.
    split; [done|]. split; [done|]. split.
    { rewrite collapse_lookup, decide_True by done. by rewrite Hpc1. }
    split; [done|]. split; [|by rewrite orb_true_r].
    assert (same_shape (comments s1) (comments (collapse p s1))) as Hsh.
    { unfold collapse. rewrite Hpc1. simpl.
      by apply (same_shape_insert _ _ pc1). }
    destruct (wf_reify s1 p pc1 W1 Hpc1) as (t1' & Ht1' & Hh1).
    pose proof (proj1 (reify_functional _) _ _ Ht1 _ Ht1'). subst t1'.
    pose proof (proj1 (count_reify _) p t1 Ht1 5%nat Hh1) as E1.
    pose proof (proj1 (count_reify _) p t' Ht' 5%nat Hh') as E2.
    rewrite (count_same_shape _ _ _ _ Hsh) in E1. congruence.
  - exists s1, pc1, t1. split; [done|]. split; [done|]. split; [done|].
    split; [done|]. split; [done|]. simpl. by rewrite orb_false_r.
Qed.

Lemma reply_grows_thread_by_one_witness :
  ∃ t s' pc' t',
    reify (comments store_test_delete) 1 t ∧
    add_comment 8 1 "User4" "Another reply" (Some 1) 103 store_test_delete
      = Ret (Some 4) s' ∧
    comments s' !! 1 = Some pc' ∧ reify (comments s') 1 t' ∧
    descendants t' = S (descendants t).
Proof.
  destruct (reply_grows_thread_by_one store_test_delete 8 1
              (Post.mk 1 "Post Title" [1; 2]) "User4" "Another reply" 1
              (Comment.mk 1 "User1" "First comment." 100 None [3] 0 false)
              0 103)
    as (t & s' & pc' & t' & Ht & E & Hpc' & Ht' & Hsize & _);
    [eexists; apply history_test_delete|lia|done|reflexivity
    |vm_compute; reflexivity|vm_compute; reflexivity
    |eapply hops_root; vm_compute; reflexivity|lia|].
  exists t, s', pc', t'.
  split; [exact Ht|]. split; [exact E|]. split; [exact Hpc'|].
  split; [exact Ht'|exact Hsize].
Defined.
